(** * The directive suppression engine and rule pipeline of [lint/file.go]

    A shallow embedding of [File.lint], [File.disabledIntervals] (with its
    closures [handleComment], [handleRules], [handleConfig] and
    [getEnabledDisabledIntervals]) and [File.filterFailures], together with
    the pieces of the Go standard library they call ([regexp], [strings],
    [go/token], [go/ast]); of the other methods of [File] ([IsTest],
    [IsImportable], [Content], [NewFile], [Render], [IsUntypedConst]); and
    of the formatter [Checkstyle] of [formatter/checkstyle.go].

    Conventions:
    - a Go [string] is a [string] of bytes; a Go [int] is a [Z], with the
      64-bit wrap-around written out where the code does arithmetic;
    - a Go [map[string]T] is a [gmap string T]; the order in which [range]
      visits a map is a parameter of the embedding;
    - the channel [failures] is the list of the values sent on it, oldest
      first, and the error [lint] returns is an [option];
    - [float64] is Rocq's binary64 [float];
    - a rule's [Apply] is a function: it returns the same failures for the
      same file and arguments;
    - what the code calls outside of its package and of the packages above
      (the parser, the printer, the type checker, [encoding/xml],
      [text/template]) is a variable of the section that embeds the
      caller. *)

From Stdlib Require Import ZArith Ascii PrimFloat.
From Stdlib Require String.
From stdpp Require Import gmap strings list fin_maps.

Local Open Scope Z_scope.

(* ===================================================================== *)
(** ** Bytes and strings                                                  *)
(* ===================================================================== *)

Module strings.

(** Membership of a byte in a cutset. *)
Fixpoint ContainsByte (cutset : string) (c : ascii) : bool :=
  match cutset with
  | EmptyString => false
  | String d rest => if Ascii.eqb c d then true else ContainsByte rest c
  end.

Fixpoint TrimLeft (s cutset : string) : string :=
  match s with
  | EmptyString => EmptyString
  | String c rest =>
      if ContainsByte cutset c then TrimLeft rest cutset else s
  end.

Fixpoint TrimRight (s cutset : string) : string :=
  match s with
  | EmptyString => EmptyString
  | String c rest =>
      match TrimRight rest cutset with
      | EmptyString =>
          if ContainsByte cutset c then EmptyString else String c EmptyString
      | kept => String c kept
      end
  end.

(** [strings.Trim(s, cutset)]: [s] without the leading and trailing bytes
    that occur in [cutset]. *)
Definition Trim (s cutset : string) : string :=
  TrimRight (TrimLeft s cutset) cutset.

(** [strings.Split(s, sep)] for a separator of one byte: the pieces of [s]
    between the occurrences of [sep]; [n] separators give [n+1] pieces, so
    the empty string gives one empty piece. *)
Fixpoint Split (s : string) (sep : ascii) : list string :=
  match s with
  | EmptyString => [EmptyString]
  | String c rest =>
      if Ascii.eqb c sep then EmptyString :: Split rest sep
      else match Split rest sep with
           | piece :: pieces => String c piece :: pieces
           | [] => [String c EmptyString]
           end
  end.

(** [strings.HasSuffix(s, suffix)]:
    [len(s) >= len(suffix) && s[len(s)-len(suffix):] == suffix]. *)
Definition HasSuffix (s suffix : string) : bool :=
  (String.length suffix <=? String.length s)%nat
  && String.eqb
       (String.substring (String.length s - String.length suffix)
          (String.length suffix) s)
       suffix.

End strings.

(* ===================================================================== *)
(** ** Regular expressions (package [regexp])                             *)
(* ===================================================================== *)

Module regexp.

(** The fragment of RE2 syntax that [directiveRegexp] is written in.
    Repetition is only ever applied to a character class. Texts are
    matched byte by byte; for the classes used here, which tell apart
    bytes below 128 only, that is matching rune by rune. *)
Inductive Regexp : Type :=
| Lit (text : string)                 (* the literal text *)
| Star (class : ascii -> bool)        (* [c*], greedy *)
| Plus (class : ascii -> bool)        (* [c+], greedy *)
| Seq (r1 r2 : Regexp)
| Alt (r1 r2 : Regexp)                (* [r1|r2], the left one preferred *)
| Opt (r : Regexp)                    (* [r?], taking [r] preferred *)
| Cap (index : nat) (r : Regexp).     (* capturing group number [index] *)

(** [\s] is [[\t\n\f\r ]]. *)
Definition space (c : ascii) : bool :=
  let n := nat_of_ascii c in
  (n =? 9)%nat || (n =? 10)%nat || (n =? 12)%nat || (n =? 13)%nat
  || (n =? 32)%nat.

(** [[^\s]] *)
Definition notSpace (c : ascii) : bool := negb (space c).

(** [.] without the [s] flag: anything but a line feed. *)
Definition anyCharNotNL (c : ascii) : bool :=
  negb (nat_of_ascii c =? 10)%nat.

Fixpoint stripPrefix (prefix s : string) : option string :=
  match prefix, s with
  | EmptyString, _ => Some s
  | String p prefix', String c s' =>
      if Ascii.eqb p c then stripPrefix prefix' s' else None
  | String _ _, EmptyString => None
  end.

(** The part of [s] that was consumed when [rest] is what remains. *)
Definition consumed (s rest : string) : string :=
  String.substring 0 (String.length s - String.length rest) s.

(** Greedy repetition of a class with backtracking: the longest run is
    tried first, then shorter ones. *)
Fixpoint star {A} (class : ascii -> bool) (s : string)
    (k : string -> option A) : option A :=
  match s with
  | EmptyString => k EmptyString
  | String c rest =>
      if class c then
        match star class rest k with
        | Some r => Some r
        | None => k s
        end
      else k s
  end.

(** Submatches are kept in a slice indexed by group number. *)
Definition Submatches : Type := list string.

(** Leftmost-first matching at the start of [s]: alternatives are explored
    in the order of preference and the first one on which the
    continuation [k] succeeds is the match. *)
Fixpoint run (r : Regexp) (s : string) (caps : Submatches)
    (k : string -> Submatches -> option Submatches) : option Submatches :=
  match r with
  | Lit text =>
      match stripPrefix text s with
      | Some rest => k rest caps
      | None => None
      end
  | Star class => star class s (fun rest => k rest caps)
  | Plus class =>
      match s with
      | String c rest =>
          if class c then star class rest (fun rest' => k rest' caps)
          else None
      | EmptyString => None
      end
  | Seq r1 r2 => run r1 s caps (fun rest caps' => run r2 rest caps' k)
  | Alt r1 r2 =>
      match run r1 s caps k with
      | Some m => Some m
      | None => run r2 s caps k
      end
  | Opt r1 =>
      match run r1 s caps k with
      | Some m => Some m
      | None => k s caps
      end
  | Cap index r1 =>
      run r1 s caps
        (fun rest caps' => k rest (<[index := consumed s rest]> caps'))
  end.

Fixpoint NumSubexp (r : Regexp) : nat :=
  match r with
  | Lit _ | Star _ | Plus _ => 0
  | Seq r1 r2 | Alt r1 r2 => Nat.max (NumSubexp r1) (NumSubexp r2)
  | Opt r1 => NumSubexp r1
  | Cap index r1 => Nat.max index (NumSubexp r1)
  end.

Definition atEnd (rest : string) (caps : Submatches) : option Submatches :=
  match rest with
  | EmptyString => Some caps
  | String _ _ => None
  end.

(** [FindStringSubmatch] of a pattern [^r$]: the whole text at index 0 and
    the text of each group at its index, the empty string for a group that
    took no part in the match; the nil slice when there is no match. *)
Definition FindStringSubmatch (r : Regexp) (s : string) : list string :=
  match run r s (replicate (S (NumSubexp r)) EmptyString) atEnd with
  | Some caps => s :: tail caps
  | None => []
  end.

End regexp.

(** Indexing a result of [FindStringSubmatch]. *)
Definition index (match_ : list string) (i : nat) : string :=
  nth i match_ EmptyString.

Import regexp.

(** [directiveRegexp], compiled from
    [^//[\s]*revive:(enable|disable)(?:-(line|next-line))?(?::([^\s]+))?[\s]*(?: (.+))?$];
    the anchors are those of [FindStringSubmatch] above, a group [(?:...)]
    is a group without [Cap]. *)
Definition directiveRegexp : Regexp :=
  Seq (Lit "//")
  (Seq (Star space)
  (Seq (Lit "revive:")
  (Seq (Cap 1 (Alt (Lit "enable") (Lit "disable")))
  (Seq (Opt (Seq (Lit "-") (Cap 2 (Alt (Lit "line") (Lit "next-line")))))
  (Seq (Opt (Seq (Lit ":") (Cap 3 (Plus notSpace))))
  (Seq (Star space)
       (Opt (Seq (Lit " ") (Cap 4 (Plus anyCharNotNL)))))))))).

Definition directivePos : nat := 1.
Definition modifierPos : nat := 2.
Definition rulesPos : nat := 3.
Definition reasonPos : nat := 4.

(* ===================================================================== *)
(** ** Positions and comments (packages [go/token] and [go/ast])          *)
(* ===================================================================== *)

(** Go's [int] on a 64-bit platform, and what an [int] computation that
    leaves its range wraps to. *)
Definition int : Type := Z.
Definition wrapInt (z : Z) : int := (z + 2 ^ 63) mod 2 ^ 64 - 2 ^ 63.

(** [math.MaxInt32] *)
Definition MaxInt32 : int := 2147483647.

Module token.

(** [token.Pos]: a compact offset into a file set. *)
Definition Pos : Type := Z.
Definition NoPos : Pos := 0.

Record Position : Type := mkPosition {
  Filename : string;
  Offset : int;
  Line : int;
  Column : int;
}.

(** [token.FileSet], seen through its only use, [fset.Position(pos)]. *)
Definition FileSet : Type := Pos -> Position.

End token.

Module ast.

(** [ast.Comment]: a [//] or [/* */] comment; [Text] holds it whole. *)
Record Comment : Type := mkComment {
  Slash : token.Pos;
  Text : string;
}.

Definition Comment_Pos (c : Comment) : token.Pos := Slash c.
Definition Comment_End (c : Comment) : token.Pos :=
  Slash c + Z.of_nat (String.length (Text c)).

(** [ast.CommentGroup]: comments with no other token and no empty line in
    between; go/ast documents [len(List) > 0]. *)
Record CommentGroup : Type := mkCommentGroup {
  List : list Comment;
}.

(** [g.List[len(g.List)-1].End()]. On a group without comments, which
    go/parser never builds, Go panics; [NoPos] stands for that here. *)
Definition CommentGroup_End (g : CommentGroup) : token.Pos :=
  match last (List g) with
  | Some c => Comment_End c
  | None => token.NoPos
  end.

(** The values behind the interface [ast.Node] that the pipeline meets: a
    comment, or a node of the tree known by its extent. *)
Inductive Node : Type :=
| CommentNode (c : Comment)
| TreeNode (pos end_ : token.Pos).

Definition Node_Pos (n : Node) : token.Pos :=
  match n with
  | CommentNode c => Comment_Pos c
  | TreeNode pos _ => pos
  end.

Definition Node_End (n : Node) : token.Pos :=
  match n with
  | CommentNode c => Comment_End c
  | TreeNode _ end_ => end_
  end.

(** [ast.File], of which the engine reads the comments. *)
Record File : Type := mkFile {
  Comments : list CommentGroup;
}.

End ast.

(* ===================================================================== *)
(** ** The types of package [lint]                                        *)
(* ===================================================================== *)

Record Package : Type := mkPackage {
  fset : token.FileSet;
}.

Module File.

Record t : Type := mk {
  Name : string;
  Pkg : Package;
  content : string;
  AST : ast.File;
}.

(** [ToPosition] returns line and column for given position. *)
Definition ToPosition (f : t) (pos : token.Pos) : token.Position :=
  fset (Pkg f) pos.

(** [IsTest] returns if the file contains tests. *)
Definition IsTest (f : t) : bool := strings.HasSuffix (Name f) "_test.go".

(** [Content] returns the file's content. *)
Definition Content (f : t) : string := content f.

Section Importable.

(** Modelled from the spec: the method [IsMain] of [Package] is declared
    outside the sources at hand; a package knows whether it is an
    entry-point package. *)
Variable Package_IsMain : Package -> bool.

(** [IsImportable] returns if the symbols defined in this file can be
    imported in other packages. *)
Definition IsImportable (f : t) : bool :=
  if IsTest f then false
  else if Package_IsMain (Pkg f) then false
  else true.

End Importable.

Section Construction.

(** [parser.ParseFile(fset, name, content, parser.ParseComments)]: the
    syntax tree, or the error of the parser. *)
Variable ParseFile : token.FileSet -> string -> string -> ast.File + string.

(** [NewFile] creates a new file: the file, or the error. *)
Definition NewFile (name : string) (content : string) (pkg : Package)
  : t + string :=
  match ParseFile (fset pkg) name content with
  | inr err => inr err
  | inl f => inl (mk name pkg content f)
  end.

End Construction.

End File.

Record FailurePosition : Type := mkFailurePosition {
  Start : token.Position;
  End_ : token.Position;
}.

(** Modelled from the spec: [ToFailurePosition] is declared outside the
    sources at hand; it resolves the start and the end of a range to
    line and column through the package's context. *)
Definition ToFailurePosition (start end_ : token.Pos) (f : File.t)
  : FailurePosition :=
  {| Start := File.ToPosition f start; End_ := File.ToPosition f end_ |}.

Module Failure.

(** Modelled from the spec: the struct [Failure] is declared outside the
    sources at hand. The fields are those [file.go] reads and writes, and
    the flag behind [IsInternal]. *)
Record t : Type := mk {
  Failure : string;
  RuleName : string;
  Position : FailurePosition;
  Node : option ast.Node;
  Confidence : float;
  Internal : bool;
}.

Definition IsInternal (f : t) : bool := Internal f.

Definition withRuleName (name : string) (f : t) : t :=
  mk (Failure f) name (Position f) (Node f) (Confidence f) (Internal f).

Definition withPosition (p : FailurePosition) (f : t) : t :=
  mk (Failure f) (RuleName f) p (Node f) (Confidence f) (Internal f).

End Failure.

Module DisabledInterval.

Record t : Type := mk {
  RuleName : string;
  From : token.Position;
  To : token.Position;
}.

(** [interval.To.Line = line] *)
Definition withToLine (line : int) (d : t) : t :=
  mk (RuleName d) (From d)
     (token.mkPosition (token.Filename (To d)) (token.Offset (To d)) line
        (token.Column (To d))).

End DisabledInterval.

(** [Arguments] is [[]any]; the pipeline hands it to the rule untouched. *)
Definition Arguments : Type := list string.

Module Rule.

(** The interface [Rule]: a name and a function from a file and arguments
    to failures. *)
Record t : Type := mk {
  Name : string;
  Apply : File.t -> Arguments -> list Failure.t;
}.

End Rule.

Module RuleConfig.

(** Modelled from the spec: [RuleConfig] is declared outside the sources at
    hand; its file-exclusion patterns are kept as the predicate
    [MustExclude] they decide. *)
Record t : Type := mk {
  Arguments_ : Arguments;
  MustExclude : string -> bool;
}.

(** The zero value, which a map lookup gives for a rule without entry. *)
Definition zero : t := mk [] (fun _ => false).

End RuleConfig.

Module Config.

Record t : Type := mk {
  Confidence : float;
  Rules : gmap string RuleConfig.t;
  Directives : gset string;
}.

End Config.

Record enableDisableConfig : Type := mkEnableDisableConfig {
  enabled : bool;
  position : int;
}.

Abbreviation disabledIntervalsMap := (gmap string (list DisabledInterval.t)).
Abbreviation rulesMap := (gmap string (list enableDisableConfig)).

Definition directiveSpecifyDisableReason : string := "specify-disable-reason".

(* ===================================================================== *)
(** ** [File.disabledIntervals]                                           *)
(* ===================================================================== *)

(** The order in which a [range] loop visits a map is not fixed by the
    language: it is some enumeration of the entries, each once. *)
Definition MapRange : Type :=
  rulesMap -> list (string * list enableDisableConfig).

Definition validRange (range : MapRange) : Prop :=
  forall m, range m ≡ₚ map_to_list m.

(** The inner loop of [getEnabledDisabledIntervals], from index [i] on. At
    an odd index [ruleResult] holds the interval of the index before, so
    [ruleResult[len(ruleResult)-1]] is in range. *)
Fixpoint ruleResultLoop (f : File.t) (ruleName : string) (i : nat)
    (disabledArr : list enableDisableConfig)
    (ruleResult : list DisabledInterval.t) : list DisabledInterval.t :=
  match disabledArr with
  | [] => ruleResult
  | e :: rest =>
      let interval :=
        DisabledInterval.mk ruleName
          (token.mkPosition (File.Name f) 0 (position e) 0)
          (token.mkPosition (File.Name f) 0 MaxInt32 0) in
      ruleResultLoop f ruleName (S i) rest
        (if (i mod 2 =? 0)%nat then ruleResult ++ [interval]
         else alter (DisabledInterval.withToLine (position e))
                (length ruleResult - 1)%nat ruleResult)
  end.

(** [result[ruleName] = ruleResult] for each entry, in the order of
    [range]. *)
Definition getEnabledDisabledIntervals (range : MapRange) (f : File.t)
    (enabledDisabledRulesMap : rulesMap) : disabledIntervalsMap :=
  foldl (fun (result : disabledIntervalsMap) entry =>
           let '(ruleName, disabledArr) := entry in
           <[ruleName := ruleResultLoop f ruleName 0 disabledArr []]> result)
        ∅ (range enabledDisabledRulesMap).

(** [existing[len(existing)-1]] is read behind [len(existing) > 1], where
    the list has a last element. *)
Definition handleConfig (isEnabled : bool) (line : int) (name : string)
    (enabledDisabledRulesMap : rulesMap) : rulesMap :=
  let '(existing, enabledDisabledRulesMap) :=
    match enabledDisabledRulesMap !! name with
    | Some existing => (existing, enabledDisabledRulesMap)
    | None => ([], <[name := []]> enabledDisabledRulesMap)
    end in
  if ((1 <? length existing)%nat
      && match last existing with
         | Some e => Bool.eqb (enabled e) isEnabled
         | None => false
         end)
     || ((length existing =? 0)%nat && isEnabled)
  then enabledDisabledRulesMap
  else <[name := existing ++ [mkEnableDisableConfig isEnabled line]]>
         enabledDisabledRulesMap.

(** The [switch] on [modifier] for each name, [line+1] as an [int]. *)
Definition handleRules (modifier : string) (isEnabled : bool) (line : int)
    (ruleNames : list string) (enabledDisabledRulesMap : rulesMap)
  : rulesMap :=
  foldl (fun m name =>
           if String.eqb modifier "line" then
             handleConfig (negb isEnabled) line name
               (handleConfig isEnabled line name m)
           else if String.eqb modifier "next-line" then
             handleConfig (negb isEnabled) (wrapInt (line + 1)) name
               (handleConfig isEnabled (wrapInt (line + 1)) name m)
           else handleConfig isEnabled line name m)
        enabledDisabledRulesMap ruleNames.

(** What [disabledIntervals] has built so far: the toggle events per rule
    name, and what it has sent on [failures]. *)
Record engine : Type := mkEngine {
  enabledDisabledRulesMap : rulesMap;
  failures : list Failure.t;
}.

Definition LF : string := String (ascii_of_nat 10) EmptyString.

(** The loop that keeps the non-empty names of [tempNames]. *)
Definition collectRuleNames (tempNames : list string) : list string :=
  foldl (fun ruleNames name =>
           let name := strings.Trim name LF in
           if negb (String.eqb name "") then ruleNames ++ [name]
           else ruleNames)
        [] tempNames.

(** The body of the loop of [handleComment], for the comment [c]. *)
Definition handleCommentLine (f : File.t) (rules : list Rule.t)
    (mustSpecifyDisableReason : bool) (line : int) (st : engine)
    (c : ast.Comment) : engine :=
  let match_ := FindStringSubmatch directiveRegexp (ast.Text c) in
  if (length match_ =? 0)%nat then st
  else
    let ruleNames := collectRuleNames
                       (strings.Split (index match_ rulesPos) ","%char) in
    let mustCheckDisablingReason :=
      mustSpecifyDisableReason
      && String.eqb (index match_ directivePos) "disable" in
    if mustCheckDisablingReason
       && String.eqb (strings.Trim (index match_ reasonPos) " ") ""
    then
      mkEngine (enabledDisabledRulesMap st)
        (failures st ++
         [Failure.mk "reason of lint disabling not found"
            directiveSpecifyDisableReason
            (ToFailurePosition (ast.Comment_Pos c) (ast.Comment_End c) f)
            (Some (ast.CommentNode c))
            1%float
            false])
    else
      let ruleNames :=
        if (length ruleNames =? 0)%nat
        then foldl (fun names rule => names ++ [Rule.Name rule])
               ruleNames rules
        else ruleNames in
      mkEngine
        (handleRules (index match_ modifierPos)
           (String.eqb (index match_ directivePos) "enable") line ruleNames
           (enabledDisabledRulesMap st))
        (failures st).

(** [handleComment(c, line)], for the comment group [c]. *)
Definition handleComment (f : File.t) (rules : list Rule.t)
    (mustSpecifyDisableReason : bool) (c : ast.CommentGroup) (line : int)
    (st : engine) : engine :=
  foldl (handleCommentLine f rules mustSpecifyDisableReason line) st
    (ast.List c).

(** The engine after the loop over [f.AST.Comments]. *)
Definition scanComments (f : File.t) (rules : list Rule.t)
    (mustSpecifyDisableReason : bool) (st : engine) : engine :=
  foldl (fun st c =>
           handleComment f rules mustSpecifyDisableReason c
             (token.Line (File.ToPosition f (ast.CommentGroup_End c))) st)
        st (ast.Comments (File.AST f)).

(** [disabledIntervals]: the intervals, and the failures sent meanwhile. *)
Definition disabledIntervals (range : MapRange) (f : File.t)
    (rules : list Rule.t) (mustSpecifyDisableReason : bool)
  : disabledIntervalsMap * list Failure.t :=
  let st := scanComments f rules mustSpecifyDisableReason
              (mkEngine ∅ []) in
  (getEnabledDisabledIntervals range f (enabledDisabledRulesMap st),
   failures st).

(* ===================================================================== *)
(** ** [File.filterFailures]                                              *)
(* ===================================================================== *)

(** The loop over the intervals of one rule; [false] is the [break]. *)
Fixpoint includeLoop (fStart fEnd : int)
    (intervals : list DisabledInterval.t) : bool :=
  match intervals with
  | [] => true
  | interval :: rest =>
      let intStart := token.Line (DisabledInterval.From interval) in
      let intEnd := token.Line (DisabledInterval.To interval) in
      if ((fStart >=? intStart) && (fStart <=? intEnd))
         || ((fEnd >=? intStart) && (fEnd <=? intEnd))
      then false
      else includeLoop fStart fEnd rest
  end.

(** [result = append(result, failure)] for each failure that is kept. *)
Definition filterFailures (failures : list Failure.t)
    (disabledIntervals : disabledIntervalsMap) : list Failure.t :=
  foldl (fun result failure =>
           let fStart := token.Line (Start (Failure.Position failure)) in
           let fEnd := token.Line (End_ (Failure.Position failure)) in
           match disabledIntervals !! Failure.RuleName failure with
           | None => result ++ [failure]
           | Some intervals =>
               if includeLoop fStart fEnd intervals
               then result ++ [failure]
               else result
           end)
        [] failures.

(* ===================================================================== *)
(** ** [File.lint]                                                        *)
(* ===================================================================== *)

(** The first loop over [currentFailures]: the message of the first
    internal failure, or the failures with name and position filled in. *)
Fixpoint normalize (f : File.t) (currentRule : Rule.t)
    (currentFailures : list Failure.t) : string + list Failure.t :=
  match currentFailures with
  | [] => inr []
  | failure :: rest =>
      if Failure.IsInternal failure then inl (Failure.Failure failure)
      else
        let failure :=
          if String.eqb (Failure.RuleName failure) ""
          then Failure.withRuleName (Rule.Name currentRule) failure
          else failure in
        let failure :=
          match Failure.Node failure with
          | Some node =>
              Failure.withPosition
                (ToFailurePosition (ast.Node_Pos node) (ast.Node_End node) f)
                failure
          | None => failure
          end in
        match normalize f currentRule rest with
        | inl err => inl err
        | inr rest' => inr (failure :: rest')
        end
  end.

(** [a >= b] on [float64]. *)
Definition float64_ge (a b : float) : bool := PrimFloat.leb b a.

(** The second loop: the sends of the failures that pass the gate. *)
Definition confidenceGate (config : Config.t) (failures : list Failure.t)
  : list Failure.t :=
  List.filter (fun failure =>
                 float64_ge (Failure.Confidence failure)
                   (Config.Confidence config)) failures.

(** The loop over [rules]: what has been sent on [failures] when [lint]
    returns, and the error it returns. *)
Fixpoint lintRules (f : File.t) (config : Config.t)
    (disabledIntervals : disabledIntervalsMap) (rules : list Rule.t)
    (sent : list Failure.t) : list Failure.t * option string :=
  match rules with
  | [] => (sent, None)
  | currentRule :: rest =>
      let ruleConfig :=
        default RuleConfig.zero
          (Config.Rules config !! Rule.Name currentRule) in
      if RuleConfig.MustExclude ruleConfig (File.Name f)
      then lintRules f config disabledIntervals rest sent
      else
        match normalize f currentRule
                (Rule.Apply currentRule f (RuleConfig.Arguments_ ruleConfig))
        with
        | inl err => (sent, Some err)
        | inr currentFailures =>
            lintRules f config disabledIntervals rest
              (sent ++ confidenceGate config
                         (filterFailures currentFailures disabledIntervals))
        end
  end.

(** [_, mustSpecifyDisableReason := config.Directives[...]]: the policy of
    [config] on reasons. *)
Definition mustSpecifyDisableReason (config : Config.t) : bool :=
  bool_decide (directiveSpecifyDisableReason ∈ Config.Directives config).

(** [lint]: what it has sent on [failures], the sends of
    [disabledIntervals] first, and the error it returns, if any. *)
Definition lint (range : MapRange) (f : File.t) (rules : list Rule.t)
    (config : Config.t) : list Failure.t * option string :=
  let '(disabledIntervals, sent) :=
    disabledIntervals range f rules (mustSpecifyDisableReason config) in
  lintRules f config disabledIntervals rules sent.

(* ===================================================================== *)
(** ** [File.Render] and [File.IsUntypedConst]                            *)
(* ===================================================================== *)

Module types.

(** [types.BasicKind], in the order in which go/types declares the
    kinds. *)
Inductive BasicKind : Type :=
| Invalid
| Bool | Int | Int8 | Int16 | Int32 | Int64
| Uint | Uint8 | Uint16 | Uint32 | Uint64 | Uintptr
| Float32 | Float64 | Complex64 | Complex128 | String | UnsafePointer
| UntypedBool | UntypedInt | UntypedRune | UntypedFloat | UntypedComplex
| UntypedString | UntypedNil.

(** The values behind the interface [types.Type]: a [*types.Basic] of some
    kind, or a type of another shape. *)
Inductive Type_ : Type :=
| Basic (kind : BasicKind)
| Composite.

(** [types.TypeAndValue], of which the code reads the type. *)
Record TypeAndValue : Type := mkTypeAndValue {
  Type__ : Type_;
}.

End types.

(** [basicTypeKinds[kind]], with [ok]. *)
Definition basicTypeKinds (kind : types.BasicKind) : option string :=
  match kind with
  | types.UntypedBool => Some "bool"
  | types.UntypedInt => Some "int"
  | types.UntypedRune => Some "rune"
  | types.UntypedFloat => Some "float64"
  | types.UntypedComplex => Some "complex128"
  | types.UntypedString => Some "string"
  | _ => None
  end.

Section UntypedConst.

(** [ast.Expr], with its method [Pos]. *)
Variable Expr : Type.
Variable Expr_Pos : Expr -> token.Pos.

(** [printer.Fprint(&buf, fset, x)]: what it has written to [buf], or its
    error. *)
Variable Fprint : token.FileSet -> Expr -> string + string.

(** Modelled from the spec: the type information of a package, which
    [TypesPkg] returns, is declared outside the sources at hand. *)
Variable TypesPackage : Type.
Variable TypesPkg : Package -> TypesPackage.

(** [types.Eval(fset, pkg, pos, expr)] *)
Variable Eval : token.FileSet -> TypesPackage -> token.Pos -> string ->
                types.TypeAndValue + string.

(** [Render] renders a node; [None] is the panic. *)
Definition Render (f : File.t) (x : Expr) : option string :=
  match Fprint (fset (File.Pkg f)) x with
  | inr err => None
  | inl buf => Some buf
  end.

(** [IsUntypedConst] reports whether [expr] is an untyped constant, and
    indicates what its default type is; [None] is the panic of [Render]. *)
Definition IsUntypedConst (f : File.t) (expr : Expr)
  : option (string * bool) :=
  match Render f expr with
  | None => None
  | Some exprStr =>
      match Eval (fset (File.Pkg f)) (TypesPkg (File.Pkg f)) (Expr_Pos expr)
              exprStr with
      | inr err => Some (EmptyString, false)
      | inl tv =>
          match types.Type__ tv with
          | types.Basic kind =>
              match basicTypeKinds kind with
              | Some dt => Some (dt, true)
              | None => Some (EmptyString, false)
              end
          | types.Composite => Some (EmptyString, false)
          end
      end
  end.

End UntypedConst.

(* ===================================================================== *)
(** ** The formatter [Checkstyle] of [formatter/checkstyle.go]            *)
(* ===================================================================== *)

Module Checkstyle.

(** [Name] returns the name of the formatter. *)
Definition Name : string := "checkstyle".

Record issue : Type := mkIssue {
  Line : int;
  Col : int;
  What : string;
  Confidence : float;
  Severity : string;
  RuleName : string;
}.

Definition QUOTE : string := String (ascii_of_nat 34) EmptyString.

Definition checkstyleTemplate : string :=
  "<?xml version='1.0' encoding='UTF-8'?>" +:+ LF +:+
  "<checkstyle version=" +:+ QUOTE +:+ "5.0" +:+ QUOTE +:+ ">" +:+ LF +:+
  "{{- range $k, $v := . }}" +:+ LF +:+
  "    <file name=" +:+ QUOTE +:+ "{{ $k }}" +:+ QUOTE +:+ ">" +:+ LF +:+
  "      {{- range $i, $issue := $v }}" +:+ LF +:+
  "      <error line=" +:+ QUOTE +:+ "{{ $issue.Line }}" +:+ QUOTE +:+
  " column=" +:+ QUOTE +:+ "{{ $issue.Col }}" +:+ QUOTE +:+
  " message=" +:+ QUOTE +:+
  "{{ $issue.What }} (confidence {{ $issue.Confidence}})" +:+ QUOTE +:+
  " severity=" +:+ QUOTE +:+ "{{ $issue.Severity }}" +:+ QUOTE +:+
  " source=" +:+ QUOTE +:+ "revive/{{ $issue.RuleName }}" +:+ QUOTE +:+
  "/>" +:+ LF +:+
  "      {{- end }}" +:+ LF +:+
  "    </file>" +:+ LF +:+
  "{{- end }}" +:+ LF +:+
  "</checkstyle>".

Section Format.

(** [xml.Escape(buf, []byte(s))], as what it writes to [buf]. *)
Variable xml_Escape : string -> string.

(** Modelled from the spec: [severity] and the method [Filename] of
    [Failure] are declared outside the sources at hand; a failure exposes
    its file path and, under a configuration, its severity. *)
Variable severity : Config.t -> Failure.t -> string.
Variable Failure_Filename : Failure.t -> string.

(** Package [text/template]: [New(name).Parse(text)], and [Execute] on a
    map of issues, as what it writes or its error. *)
Variable Template : Type.
Variable Parse : string -> string -> Template + string.
Variable Execute : Template -> gmap string (list issue) -> string + string.

(** The loop over the channel [failures]: the map [issues] after it. *)
Definition collectIssues (failures : list Failure.t) (config : Config.t)
  : gmap string (list issue) :=
  foldl (fun (issues : gmap string (list issue)) failure =>
           let what := xml_Escape (Failure.Failure failure) in
           let iss :=
             mkIssue (token.Line (Start (Failure.Position failure)))
               (token.Column (Start (Failure.Position failure)))
               what
               (Failure.Confidence failure)
               (severity config failure)
               (Failure.RuleName failure) in
           let fn := Failure_Filename failure in
           let issues :=
             match issues !! fn with
             | None => <[fn := []]> issues
             | Some _ => issues
             end in
           <[fn := default [] (issues !! fn) ++ [iss]]> issues)
        ∅ failures.

(** [Format] formats the failures gotten from the lint: the text and the
    error. *)
Definition Format (failures : list Failure.t) (config : Config.t)
  : string * option string :=
  let issues := collectIssues failures config in
  match Parse "revive" checkstyleTemplate with
  | inr err => (EmptyString, Some err)
  | inl t =>
      match Execute t issues with
      | inr err => (EmptyString, Some err)
      | inl buf => (buf, None)
      end
  end.

End Format.

End Checkstyle.

(* ===================================================================== *)
(** ** Vocabulary of the statements                                       *)
(* ===================================================================== *)

(** Every byte of [s] is in the class [p]. *)
Fixpoint allBytes (p : ascii -> bool) (s : string) : bool :=
  match s with
  | EmptyString => true
  | String c rest => p c && allBytes p rest
  end.

(** The first byte of [s], if there is one, is outside of [class]. *)
Definition stopsAt (class : ascii -> bool) (s : string) : bool :=
  match s with
  | EmptyString => true
  | String c _ => negb (class c)
  end.

(** A rule name as a directive can list it: not empty, without white space
    and without comma. *)
Definition ruleNameByte (c : ascii) : bool :=
  notSpace c && negb (Ascii.eqb c ","%char).

Definition ruleNameOk (R : string) : bool :=
  negb (String.eqb R "") && allBytes ruleNameByte R.

(** A modifier as a directive writes it: after a dash, or not at all. *)
Definition dashed (modifier : string) : string :=
  if String.eqb modifier "" then "" else "-" +:+ modifier.

(** The text of the directive [//revive:<action>[-<modifier>]:<names>]. *)
Definition directiveText (action modifier names : string) : string :=
  "//revive:" +:+ action +:+ dashed modifier +:+ ":" +:+ names.

Definition isAction (action : string) : Prop :=
  action = "enable" \/ action = "disable".

Definition isModifier (modifier : string) : Prop :=
  modifier = "" \/ modifier = "line" \/ modifier = "next-line".

(** What follows the action and the modifier in [directiveRegexp]. *)
Definition directiveTail : Regexp :=
  Seq (Opt (Seq (Lit ":") (Cap 3 (Plus notSpace))))
      (Seq (Star space)
           (Opt (Seq (Lit " ") (Cap 4 (Plus anyCharNotNL))))).


(** [directiveRegexp] matches the text of [c]. *)
Definition isDirective (c : ast.Comment) : bool :=
  negb (length (FindStringSubmatch directiveRegexp (ast.Text c)) =? 0)%nat.

(** The line the engine gives the comments of the group [g]: that of the
    end of the group. *)
Definition groupLine (f : File.t) (g : ast.CommentGroup) : int :=
  token.Line (File.ToPosition f (ast.CommentGroup_End g)).

(** The comments of [f] that are directives, in the order of the scan, each
    with the line the engine gives it. *)
Definition directives (f : File.t) : list (int * ast.Comment) :=
  flat_map (fun g => map (fun c => (groupLine f g, c))
                       (List.filter isDirective (ast.List g)))
           (ast.Comments (File.AST f)).

(** The interval of rule [R] from line [from] to line [to] in file [f]. *)
Definition lineInterval (f : File.t) (R : string) (from to : int)
  : DisabledInterval.t :=
  DisabledInterval.mk R (token.mkPosition (File.Name f) 0 from 0)
    (token.mkPosition (File.Name f) 0 to 0).

(** The toggle events of a rule taken two by two; a last event without
    partner opens an interval up to [MaxInt32]. *)
Fixpoint pairIntervals (f : File.t) (R : string)
    (events : list enableDisableConfig) : list DisabledInterval.t :=
  match events with
  | [] => []
  | [e] => [lineInterval f R (position e) MaxInt32]
  | e1 :: e2 :: rest =>
      lineInterval f R (position e1) (position e2) :: pairIntervals f R rest
  end.

(** [handleConfig] on the events of one rule. *)
Definition appendEvent (isEnabled : bool) (line : int)
    (existing : list enableDisableConfig) : list enableDisableConfig :=
  if ((1 <? length existing)%nat
      && match last existing with
         | Some e => Bool.eqb (enabled e) isEnabled
         | None => false
         end)
     || ((length existing =? 0)%nat && isEnabled)
  then existing
  else existing ++ [mkEnableDisableConfig isEnabled line].

(** The state pending for a rule: that of its last event, enabled when it
    has none. *)
Definition pendingState (events : list enableDisableConfig) : bool :=
  match last events with
  | Some e => enabled e
  | None => true
  end.

(** [line] lies in the interval [d], ends included. *)
Definition lineInInterval (line : int) (d : DisabledInterval.t) : bool :=
  (token.Line (DisabledInterval.From d) <=? line)
  && (line <=? token.Line (DisabledInterval.To d)).

Definition startLine (failure : Failure.t) : int :=
  token.Line (Start (Failure.Position failure)).

Definition endLine (failure : Failure.t) : int :=
  token.Line (End_ (Failure.Position failure)).

(** The start line or the end line of the failure lies in some interval
    recorded for its rule name. *)
Definition suppressed (disabledIntervals : disabledIntervalsMap)
    (failure : Failure.t) : bool :=
  match disabledIntervals !! Failure.RuleName failure with
  | Some intervals =>
      existsb (fun d => lineInInterval (startLine failure) d
                        || lineInInterval (endLine failure) d) intervals
  | None => false
  end.

(** The lines [startLine .. endLine] of the failure and the lines of the
    interval [d] have a line in common. *)
Definition rangeIntersects (failure : Failure.t) (d : DisabledInterval.t)
  : bool :=
  (token.Line (DisabledInterval.From d) <=? endLine failure)
  && (startLine failure <=? token.Line (DisabledInterval.To d)).

(** What the first loop of [lint] makes of a failure that is not internal. *)
Definition normalized (f : File.t) (currentRule : Rule.t)
    (failure : Failure.t) : Failure.t :=
  Failure.mk (Failure.Failure failure)
    (if String.eqb (Failure.RuleName failure) ""
     then Rule.Name currentRule else Failure.RuleName failure)
    (match Failure.Node failure with
     | Some node =>
         ToFailurePosition (ast.Node_Pos node) (ast.Node_End node) f
     | None => Failure.Position failure
     end)
    (Failure.Node failure) (Failure.Confidence failure)
    (Failure.Internal failure).

(** The failure that [handleComment] sends for a disable directive without
    reason. *)
Definition missingReason (f : File.t) (c : ast.Comment) : Failure.t :=
  Failure.mk "reason of lint disabling not found" "specify-disable-reason"
    (ToFailurePosition (ast.Comment_Pos c) (ast.Comment_End c) f)
    (Some (ast.CommentNode c)) 1%float false.

(** The texts that a regular expression denotes. *)
Inductive Matches : Regexp -> string -> Prop :=
| Matches_Lit text : Matches (Lit text) text
| Matches_Star class s : allBytes class s = true -> Matches (Star class) s
| Matches_Plus class s :
    s <> EmptyString -> allBytes class s = true -> Matches (Plus class) s
| Matches_Seq r1 r2 s1 s2 :
    Matches r1 s1 -> Matches r2 s2 -> Matches (Seq r1 r2) (s1 +:+ s2)
| Matches_Alt_l r1 r2 s : Matches r1 s -> Matches (Alt r1 r2) s
| Matches_Alt_r r1 r2 s : Matches r2 s -> Matches (Alt r1 r2) s
| Matches_Opt_none r : Matches (Opt r) EmptyString
| Matches_Opt_some r s : Matches r s -> Matches (Opt r) s
| Matches_Cap i r s : Matches r s -> Matches (Cap i r) s.

(** A continuation whose success does not depend on the submatches. *)
Definition insensitive (k : string -> Submatches -> option Submatches)
  : Prop :=
  forall rest caps1 caps2, is_Some (k rest caps1) -> is_Some (k rest caps2).

(** Toggle events. *)
Definition disableAt (line : int) : enableDisableConfig :=
  mkEnableDisableConfig false line.
Definition enableAt (line : int) : enableDisableConfig :=
  mkEnableDisableConfig true line.

(** [line] is one of the lines [from .. to]. *)
Definition within (from to line : int) : bool :=
  (from <=? line) && (line <=? to).

(** The grammar of directives in the words of the specification:
    [//\s*revive:(enable|disable)(-(line|next-line))?(:[^\s]+)?(\s+.+)?] *)
Definition specDirectiveGrammar : Regexp :=
  Seq (Lit "//")
  (Seq (Star space)
  (Seq (Lit "revive:")
  (Seq (Cap 1 (Alt (Lit "enable") (Lit "disable")))
  (Seq (Opt (Cap 2 (Seq (Lit "-")
                        (Cap 3 (Alt (Lit "line") (Lit "next-line"))))))
  (Seq (Opt (Cap 4 (Seq (Lit ":") (Plus notSpace))))
       (Opt (Cap 5 (Seq (Plus space) (Plus anyCharNotNL))))))))).

(** The whole of [s] matches [r]. *)
Definition matchesWhole (r : Regexp) (s : string) : bool :=
  match run r s (replicate (S (NumSubexp r)) EmptyString) atEnd with
  | Some _ => true
  | None => false
  end.

(** Some part of [s] matches [r]. *)
Fixpoint matchesSomewhere (r : Regexp) (s : string) : bool :=
  match run r s (replicate (S (NumSubexp r)) EmptyString)
          (fun _ caps => Some caps) with
  | Some _ => true
  | None =>
      match s with
      | EmptyString => false
      | String _ rest => matchesSomewhere r rest
      end
  end.

(** The rule names a directive is about: those it lists, every rule when it
    lists none. *)
Definition targetRules (rules : list Rule.t) (names : string)
  : list string :=
  let ruleNames := collectRuleNames (strings.Split names ","%char) in
  if (length ruleNames =? 0)%nat then map Rule.Name rules else ruleNames.

(** What the engine does with a directive of the given action, modifier,
    names and reason, found in the comment [c]. *)
Definition applyDirective (f : File.t) (rules : list Rule.t)
    (mustSpecifyDisableReason : bool) (line : int) (st : engine)
    (c : ast.Comment) (action modifier names reason : string) : engine :=
  if mustSpecifyDisableReason && String.eqb action "disable"
     && String.eqb (strings.Trim reason " ") ""
  then mkEngine (enabledDisabledRulesMap st)
         (failures st ++ [missingReason f c])
  else mkEngine
         (handleRules modifier (String.eqb action "enable") line
            (targetRules rules names) (enabledDisabledRulesMap st))
         (failures st).

(** The configuration [lint] looks up for a rule, whether it applies the
    rule to the file, and what the rule then returns. *)
Definition ruleConfigOf (config : Config.t) (rule : Rule.t) : RuleConfig.t :=
  default RuleConfig.zero (Config.Rules config !! Rule.Name rule).

Definition applies (f : File.t) (config : Config.t) (rule : Rule.t) : bool :=
  negb (RuleConfig.MustExclude (ruleConfigOf config rule) (File.Name f)).

Definition rawFailures (f : File.t) (config : Config.t) (rule : Rule.t)
  : list Failure.t :=
  Rule.Apply rule f (RuleConfig.Arguments_ (ruleConfigOf config rule)).

(** *** Sample files

    A file set in which every line has a hundred bytes, comment groups of
    one comment that starts its line, and failures known by rule name and
    lines. *)
Definition sampleFileSet : token.FileSet :=
  fun pos => token.mkPosition "a.go" pos (pos / 100 + 1) (pos mod 100 + 1).

Definition commentAt (line : int) (text : string) : ast.CommentGroup :=
  ast.mkCommentGroup [ast.mkComment (100 * (line - 1)) text].

Definition sampleFile (comments : list ast.CommentGroup) : File.t :=
  File.mk "a.go" (mkPackage sampleFileSet) "" (ast.mkFile comments).

Definition samplePosition (line : int) : token.Position :=
  sampleFileSet (100 * (line - 1)).

Definition failureAt (ruleName : string) (startLine endLine : int)
  : Failure.t :=
  Failure.mk "found" ruleName
    (mkFailurePosition (samplePosition startLine) (samplePosition endLine))
    None 1%float false.

Definition TAB : string := String (ascii_of_nat 9) EmptyString.

(** The range order that visits a map the other way round. *)
Definition reverseRange : MapRange := fun m => reverse (map_to_list m).

Definition plainRule (name : string) (line : int) : Rule.t :=
  Rule.mk name (fun _ _ => [failureAt name line line]).

(** A rule whose second failure is internal, of confidence 0, and lies on
    line 4. *)
Definition internalFailure : Failure.t :=
  Failure.mk "cannot read" "broken"
    (mkFailurePosition (samplePosition 4) (samplePosition 4))
    None 0%float true.

Definition internalRule : Rule.t :=
  Rule.mk "broken"
    (fun _ _ => [failureAt "broken" 2 2; internalFailure;
                 failureAt "broken" 6 6]).

Definition sampleConfig (confidence : float) (directives : gset string)
  : Config.t :=
  Config.mk confidence ∅ directives.

(** Two disable directives for [R], on the lines 1 and 5, and no enable. *)
Definition twoDisables : File.t :=
  sampleFile [commentAt 1 "//revive:disable:R";
              commentAt 5 "//revive:disable:R"].

(** A directive whose reason follows a tab. *)
Definition tabbedDirective : string :=
  "//revive:disable:R" +:+ TAB +:+ "reason".

(** A comment group of two lines: on line 3 a directive for the next line,
    on line 4 a second comment. *)
Definition nextLineDirective : ast.Comment :=
  ast.mkComment 200 "//revive:disable-next-line:R".

Definition nextLineThenRemark : ast.CommentGroup :=
  ast.mkCommentGroup [nextLineDirective;
                      ast.mkComment 300 "// Foo does as it says"].

(** A comment group of two lines: on line 3 a disable for [R], on line 4 a
    second comment. *)
Definition disableDirective : ast.Comment :=
  ast.mkComment 200 "//revive:disable:R".

Definition disableThenRemark : ast.CommentGroup :=
  ast.mkCommentGroup [disableDirective;
                      ast.mkComment 300 "// from here on"].

(** A comment group of two lines, the directive on the first. *)
Definition directiveThenRemark : ast.CommentGroup :=
  ast.mkCommentGroup [ast.mkComment 200 "//revive:disable-line:R";
                      ast.mkComment 300 "// and a remark"].

(** A rule with three failures: of confidence 0.75 on line 2, 0.25 on
    line 3 and 1 on line 7. *)
Definition gradedRule : Rule.t :=
  Rule.mk "graded"
    (fun _ _ =>
       [Failure.mk "sure" "" (mkFailurePosition (samplePosition 2)
                                (samplePosition 2)) None 0.75%float false;
        Failure.mk "vague" "" (mkFailurePosition (samplePosition 3)
                                 (samplePosition 3)) None 0.25%float false;
        Failure.mk "hidden" "" (mkFailurePosition (samplePosition 7)
                                  (samplePosition 7)) None 1%float false]).

(** The first event of a rule is a disable. *)
Definition startsDisabled (events : list enableDisableConfig) : Prop :=
  match events with
  | [] => True
  | e :: _ => enabled e = false
  end.

(** Every rule of the map starts with a disable. *)
Definition wellStarted (m : rulesMap) : Prop :=
  forall name events, m !! name = Some events -> startsDisabled events.

(** *** Vocabulary of the further properties *)

(** The text [s] ends in [suffix]. *)
Definition endsWith (s suffix : string) : Prop := exists p, s = p +:+ suffix.

(** A directive comment that disables and gives no reason, as
    [handleComment] tests it. *)
Definition lacksReason (c : ast.Comment) : bool :=
  let match_ := FindStringSubmatch directiveRegexp (ast.Text c) in
  String.eqb (index match_ directivePos) "disable"
  && String.eqb (strings.Trim (index match_ reasonPos) " ") "".

(** The engine after the directives [ds], each with its line, starting
    from nothing. *)
Definition scanDirectives (f : File.t) (rules : list Rule.t)
    (mustSpecifyDisableReason : bool) (ds : list (int * ast.Comment))
  : engine :=
  foldl (fun st lc =>
           handleCommentLine f rules mustSpecifyDisableReason lc.1 st lc.2)
        (mkEngine ∅ []) ds.

(** The directive comment [c] is about the rule [R]: it lists [R], or it
    lists no rule and [R] is one of [rules]. *)
Definition isAbout (rules : list Rule.t) (c : ast.Comment) (R : string)
  : Prop :=
  R ∈ targetRules rules
        (index (FindStringSubmatch directiveRegexp (ast.Text c)) rulesPos).

(** The events that the rule [R] has after the directives [ds]. *)
Definition eventsAfter (f : File.t) (rules : list Rule.t)
    (mustSpecifyDisableReason : bool) (ds : list (int * ast.Comment))
    (R : string) : list enableDisableConfig :=
  default []
    (enabledDisabledRulesMap
       (scanDirectives f rules mustSpecifyDisableReason ds) !! R).

(** Each event is followed by an event of the other kind. *)
Fixpoint alternating (events : list enableDisableConfig) : Prop :=
  match events with
  | e1 :: rest =>
      match rest with
      | e2 :: _ => enabled e1 <> enabled e2
      | [] => True
      end /\ alternating rest
  | [] => True
  end.

(** The events of a rule start with a disable and alternate from the second
    one on. *)
Definition eventsShape (events : list enableDisableConfig) : Prop :=
  startsDisabled events /\ alternating (tail events).

Definition wellShaped (m : rulesMap) : Prop :=
  forall name events, m !! name = Some events -> eventsShape events.

(** [m'] has the rules of [m] and more, and the events of [m] with more
    after them. *)
Definition grows (m m' : rulesMap) : Prop :=
  forall name,
    (is_Some (m !! name) -> is_Some (m' !! name))
    /\ default [] (m !! name) `prefix_of` default [] (m' !! name).

(** The texts that a regular expression denotes, with the submatches a
    match leaves: [MatchesCaps r s caps caps'] when [r] matches [s] and
    turns the submatches [caps] into [caps']. *)
Inductive MatchesCaps : Regexp -> string -> Submatches -> Submatches -> Prop :=
| MatchesCaps_Lit text caps : MatchesCaps (Lit text) text caps caps
| MatchesCaps_Star class s caps :
    allBytes class s = true -> MatchesCaps (Star class) s caps caps
| MatchesCaps_Plus class s caps :
    s <> EmptyString -> allBytes class s = true ->
    MatchesCaps (Plus class) s caps caps
| MatchesCaps_Seq r1 r2 s1 s2 caps caps1 caps2 :
    MatchesCaps r1 s1 caps caps1 -> MatchesCaps r2 s2 caps1 caps2 ->
    MatchesCaps (Seq r1 r2) (s1 +:+ s2) caps caps2
| MatchesCaps_Alt_l r1 r2 s caps caps' :
    MatchesCaps r1 s caps caps' -> MatchesCaps (Alt r1 r2) s caps caps'
| MatchesCaps_Alt_r r1 r2 s caps caps' :
    MatchesCaps r2 s caps caps' -> MatchesCaps (Alt r1 r2) s caps caps'
| MatchesCaps_Opt_none r caps : MatchesCaps (Opt r) EmptyString caps caps
| MatchesCaps_Opt_some r s caps caps' :
    MatchesCaps r s caps caps' -> MatchesCaps (Opt r) s caps caps'
| MatchesCaps_Cap i r s caps caps' :
    MatchesCaps r s caps caps' ->
    MatchesCaps (Cap i r) s caps (<[i := s]> caps').

(** The rule names of a directive after their colon, and its reason after
    its space; nothing when there is none. *)
Definition colonNames (names : string) : string :=
  if String.eqb names "" then "" else ":" +:+ names.

Definition spaceReason (reason : string) : string :=
  if String.eqb reason "" then "" else " " +:+ reason.

(** The items with a comma between them. *)
Fixpoint join (items : list string) : string :=
  match items with
  | [] => EmptyString
  | item :: rest =>
      match rest with
      | [] => item
      | _ :: _ => item +:+ "," +:+ join rest
      end
  end.

(** An item of a rule list that names a rule: it is not empty. *)
Definition named (name : string) : bool := negb (String.eqb name "").

(** A failure that [lint] sends for one of the rules. *)
Definition fromRule (f : File.t) (config : Config.t)
    (di : disabledIntervalsMap) (rules : list Rule.t) (x : Failure.t)
  : Prop :=
  exists rule raw,
    rule ∈ rules /\ applies f config rule = true
    /\ raw ∈ rawFailures f config rule
    /\ Failure.IsInternal raw = false
    /\ x = normalized f rule raw
    /\ suppressed di x = false
    /\ float64_ge (Failure.Confidence x) (Config.Confidence config) = true.

(** The kinds of untyped constants with the names of their default
    types. *)
Definition untypedDefaults : list (types.BasicKind * string) :=
  [(types.UntypedBool, "bool"); (types.UntypedInt, "int");
   (types.UntypedRune, "rune"); (types.UntypedFloat, "float64");
   (types.UntypedComplex, "complex128"); (types.UntypedString, "string")].

(** The issue that [Format] makes of a failure. *)
Definition issueOf (xml_Escape : string -> string)
    (severity : Config.t -> Failure.t -> string) (config : Config.t)
    (failure : Failure.t) : Checkstyle.issue :=
  Checkstyle.mkIssue (token.Line (Start (Failure.Position failure)))
    (token.Column (Start (Failure.Position failure)))
    (xml_Escape (Failure.Failure failure))
    (Failure.Confidence failure)
    (severity config failure)
    (Failure.RuleName failure).

(** The failures of the file [fn], in the order of [failures]. *)
Definition failuresOf (Failure_Filename : Failure.t -> string) (fn : string)
    (failures : list Failure.t) : list Failure.t :=
  List.filter (fun failure => String.eqb (Failure_Filename failure) fn)
    failures.

(** The directives [ds] toggle the rule [R] in turn, without modifier and
    without reason: the first one enables when [isEnabled] and disables
    otherwise, and each further one does the other thing. *)
Fixpoint togglesInTurn (R : string) (isEnabled : bool)
    (ds : list (int * ast.Comment)) : Prop :=
  match ds with
  | [] => True
  | lc :: rest =>
      ast.Text lc.2
      = directiveText (if isEnabled then "enable" else "disable") "" R
      /\ togglesInTurn R (negb isEnabled) rest
  end.

(** One event for each directive, at its line, in turn. *)
Fixpoint eventsInTurn (isEnabled : bool) (ds : list (int * ast.Comment))
  : list enableDisableConfig :=
  match ds with
  | [] => []
  | lc :: rest =>
      mkEnableDisableConfig isEnabled lc.1 :: eventsInTurn (negb isEnabled) rest
  end.

(** *** More sample files *)

(** Comments that are no directives: a remark, and a block comment. *)
Definition remarksOnly : File.t :=
  sampleFile [commentAt 2 "// revive is not meant here";
              commentAt 4 "/* revive:disable:first */"].

(** [R] disabled on line 3, enabled on line 5 and disabled on line 9. *)
Definition threeToggles : File.t :=
  sampleFile [commentAt 3 "//revive:disable:R";
              commentAt 5 "//revive:enable:R";
              commentAt 9 "//revive:disable:R"].

(** [R] disabled on line 1, enabled on line 3 and disabled again on
    line 7; then a directive about another rule. *)
Definition reopened : File.t :=
  sampleFile [commentAt 1 "//revive:disable:R";
              commentAt 3 "//revive:enable:R";
              commentAt 7 "//revive:disable:R";
              commentAt 9 "//revive:disable:S"].

(** A directive whose rule list has an empty item. *)
Definition commaDirective : ast.Comment :=
  ast.mkComment 0 "//revive:disable:a,,b".

(** Failures of two files, and a formatter's surroundings: the file of a
    failure is that of its start, nothing is escaped, every severity is a
    warning, and the template writes the file names and the messages. *)
Definition failureIn (file message : string) : Failure.t :=
  Failure.mk message "rule"
    (mkFailurePosition (token.mkPosition file 0 1 1)
       (token.mkPosition file 0 1 1))
    None 1%float false.

Definition fileOfStart (failure : Failure.t) : string :=
  token.Filename (Start (Failure.Position failure)).

Definition sampleSeverity (config : Config.t) (failure : Failure.t)
  : string := "warning".

Definition sampleExecute (t : unit)
    (issues : gmap string (list Checkstyle.issue)) : string + string :=
  inl (foldr (fun entry out =>
                entry.1 +:+ ":" +:+ join (map Checkstyle.What entry.2)
                +:+ ";" +:+ out)
         EmptyString (map_to_list issues)).

(** *** Tactics *)

(** A text split in two by the given parts. *)
Ltac split_at s1 s2 :=
  exists s1, s2; split; [reflexivity|]; split; try done.

(** Side conditions on actions and modifiers. *)
Ltac solve_side :=
  first [ done | by left | by right | by (right; left) | by (right; right) ].

(** The ways in which an expression of known shape has matched. *)
Ltac inv_mc :=
  repeat match goal with
  | H : MatchesCaps (Seq _ _) _ _ _ |- _ => inversion H; subst; clear H
  | H : MatchesCaps (Lit _) _ _ _ |- _ => inversion H; subst; clear H
  | H : MatchesCaps (Cap _ _) _ _ _ |- _ => inversion H; subst; clear H
  | H : MatchesCaps (Alt _ _) _ _ _ |- _ => inversion H; subst; clear H
  | H : MatchesCaps (Opt _) _ _ _ |- _ => inversion H; subst; clear H
  | H : MatchesCaps (Star _) _ _ _ |- _ => inversion H; subst; clear H
  | H : MatchesCaps (Plus _) _ _ _ |- _ => inversion H; subst; clear H
  end.

(* ===================================================================== *)
(** ** Facts about strings                                                *)
(* ===================================================================== *)

Lemma length_append (s1 s2 : string) :
  String.length (s1 +:+ s2) = (String.length s1 + String.length s2)%nat.
Proof. induction s1 as [|c s1 IH]; simpl; [done|]. by rewrite IH. Qed.

Lemma substring_append (s1 s2 : string) :
  String.substring 0 (String.length s1) (s1 +:+ s2) = s1.
Proof. induction s1 as [|c s1 IH]; simpl; [by destruct s2|]. by rewrite IH. Qed.

Lemma consumed_append (s1 s2 : string) : consumed (s1 +:+ s2) s2 = s1.
Proof.
  unfold consumed. rewrite length_append.
  replace (String.length s1 + String.length s2 - String.length s2)%nat
    with (String.length s1) by lia.
  apply substring_append.
Qed.

Lemma consumed_all (s : string) : consumed s EmptyString = s.
Proof.
  unfold consumed. simpl. rewrite Nat.sub_0_r.
  induction s as [|c s IH]; simpl; [done|]. by rewrite IH.
Qed.

Lemma allBytes_impl (p q : ascii -> bool) s :
  (forall c, p c = true -> q c = true) ->
  allBytes p s = true -> allBytes q s = true.
Proof.
  intros Hpq. induction s as [|c s IH]; simpl; [done|].
  intros [Hc Hs]%andb_prop. rewrite (Hpq _ Hc). by apply IH.
Qed.

(** The matcher, construct by construct. *)
Lemma stripPrefix_append (t s : string) : stripPrefix t (t +:+ s) = Some s.
Proof.
  induction t as [|c t IH]; simpl; [by destruct s|].
  by rewrite Ascii.eqb_refl.
Qed.


Lemma star_stop {A} class (s : string) (k : string -> option A) :
  stopsAt class s = true -> star class s k = k s.
Proof.
  destruct s as [|c s]; simpl; [done|]. by intros ->%negb_true_iff.
Qed.

Lemma star_all {A} class (R : string) (k : string -> option A) r :
  allBytes class R = true -> k EmptyString = Some r ->
  star class R k = Some r.
Proof.
  intros HR Hk. induction R as [|c R IH]; simpl in *; [done|].
  apply andb_prop in HR as [-> HR]. by rewrite IH.
Qed.

Lemma run_Seq r1 r2 s caps k :
  run (Seq r1 r2) s caps k
  = run r1 s caps (fun rest caps' => run r2 rest caps' k).
Proof. done. Qed.

Lemma run_Lit t s caps k : run (Lit t) (t +:+ s) caps k = k s caps.
Proof. simpl. by rewrite stripPrefix_append. Qed.

Lemma run_Lit_fail t s caps k :
  stripPrefix t s = None -> run (Lit t) s caps k = None.
Proof. simpl. by intros ->. Qed.

Lemma run_Star_stop class s caps k :
  stopsAt class s = true -> run (Star class) s caps k = k s caps.
Proof. intros H. simpl. by rewrite star_stop. Qed.

Lemma run_Cap i r s caps k :
  run (Cap i r) s caps k
  = run r s caps (fun rest caps' => k rest (<[i := consumed s rest]> caps')).
Proof. done. Qed.

Lemma run_Alt_l r1 r2 s caps k m :
  run r1 s caps k = Some m -> run (Alt r1 r2) s caps k = Some m.
Proof. simpl. by intros ->. Qed.

Lemma run_Alt_r r1 r2 s caps k :
  run r1 s caps k = None -> run (Alt r1 r2) s caps k = run r2 s caps k.
Proof. simpl. by intros ->. Qed.

Lemma run_Opt_take r s caps k m :
  run r s caps k = Some m -> run (Opt r) s caps k = Some m.
Proof. simpl. by intros ->. Qed.

Lemma run_Opt_skip r s caps k :
  run r s caps k = None -> run (Opt r) s caps k = k s caps.
Proof. simpl. by intros ->. Qed.


Lemma run_Plus_all class (R : string) caps k m :
  R <> EmptyString -> allBytes class R = true ->
  k EmptyString caps = Some m ->
  run (Plus class) R caps k = Some m.
Proof.
  intros Hne HR Hk. destruct R as [|c R]; [done|]. simpl in *.
  apply andb_prop in HR as [-> HR]. by apply star_all.
Qed.

Lemma ruleNameOk_inv R :
  ruleNameOk R = true ->
  R <> EmptyString /\ allBytes notSpace R = true
  /\ allBytes (fun c => negb (Ascii.eqb c ","%char)) R = true.
Proof.
  unfold ruleNameOk. intros [Hne HR]%andb_prop. split; [|split].
  - intros ->. done.
  - revert HR. apply allBytes_impl. unfold ruleNameByte.
    by intros c [? ?]%andb_prop.
  - revert HR. apply allBytes_impl. unfold ruleNameByte.
    by intros c [? ?]%andb_prop.
Qed.

Lemma stripPrefix_stop class c (s : string) :
  class c = true -> stopsAt class s = true ->
  stripPrefix (String c EmptyString) s = None.
Proof.
  intros Hc. destruct s as [|d s]; simpl; [done|].
  intros Hd%negb_true_iff. destruct (Ascii.eqb_spec c d); [congruence|done].
Qed.


Lemma append_assoc (s1 s2 s3 : string) :
  (s1 +:+ s2) +:+ s3 = s1 +:+ s2 +:+ s3.
Proof.
  induction s1 as [|c s1 IH]; [done|].
  change (String c ((s1 +:+ s2) +:+ s3) = String c (s1 +:+ s2 +:+ s3)).
  by rewrite IH.
Qed.

Lemma run_Cap_Alt_l i a b (s : string) caps k m :
  k s (<[i := a]> caps) = Some m ->
  run (Cap i (Alt (Lit a) (Lit b))) (a +:+ s) caps k = Some m.
Proof.
  intros Hk. rewrite run_Cap. apply run_Alt_l.
  by rewrite run_Lit, consumed_append.
Qed.

Lemma run_Cap_Alt_r i a b (s : string) caps k :
  stripPrefix a (b +:+ s) = None ->
  run (Cap i (Alt (Lit a) (Lit b))) (b +:+ s) caps k
  = k s (<[i := b]> caps).
Proof.
  intros Ha. rewrite run_Cap, run_Alt_r by by apply run_Lit_fail.
  by rewrite run_Lit, consumed_append.
Qed.

Lemma run_directive_head action modifier (tail : string) m :
  isAction action -> isModifier modifier ->
  stopsAt (fun c => Ascii.eqb c "-"%char) tail = true ->
  run directiveTail tail [""; action; modifier; ""; ""] atEnd = Some m ->
  run directiveRegexp ("//revive:" +:+ action +:+ dashed modifier +:+ tail)
      (replicate 5 "") atEnd = Some m.
Proof.
  intros [-> | ->] [-> | [-> | ->]] Htail Hrun.
  all: unfold dashed; simpl String.eqb; cbv iota.
  all: try change ("//revive:" +:+ ?a +:+ "" +:+ tail)
         with ("//" +:+ "revive:" +:+ a +:+ tail).
  all: try change ("//revive:" +:+ ?a +:+ ("-" +:+ ?b) +:+ tail)
         with ("//" +:+ "revive:" +:+ a +:+ "-" +:+ b +:+ tail).
  all: unfold directiveRegexp;
    rewrite run_Seq, (run_Lit "//");
    rewrite run_Seq, run_Star_stop by done;
    rewrite run_Seq, (run_Lit "revive:"), run_Seq;
    first [ apply run_Cap_Alt_l | rewrite run_Cap_Alt_r by done ];
    rewrite run_Seq.
  all: first
    [ rewrite run_Opt_skip; [exact Hrun|];
      rewrite run_Seq; apply run_Lit_fail;
      by apply (stripPrefix_stop (fun c => Ascii.eqb c "-"%char))
    | apply run_Opt_take; rewrite run_Seq, (run_Lit "-");
      first [ apply run_Cap_Alt_l | rewrite run_Cap_Alt_r by done ];
      exact Hrun ].
Qed.

Lemma run_directiveTail_names (names : string) caps :
  names <> EmptyString -> allBytes notSpace names = true ->
  run directiveTail (":" +:+ names) caps atEnd
  = Some (<[3%nat := names]> caps).
Proof.
  intros Hne Hnames. unfold directiveTail.
  rewrite run_Seq. apply run_Opt_take.
  rewrite run_Seq, run_Lit, run_Cap.
  apply run_Plus_all; [done..|]. by rewrite consumed_all.
Qed.


Lemma FindStringSubmatch_directive action modifier names :
  isAction action -> isModifier modifier ->
  names <> EmptyString -> allBytes notSpace names = true ->
  FindStringSubmatch directiveRegexp (directiveText action modifier names)
  = [directiveText action modifier names; action; modifier; names; ""].
Proof.
  intros Ha Hm Hne Hnames. unfold FindStringSubmatch, directiveText.
  change (S (NumSubexp directiveRegexp)) with 5%nat.
  rewrite (run_directive_head action modifier (":" +:+ names)
             [""; action; modifier; names; ""]); [done..|].
  by rewrite run_directiveTail_names.
Qed.


(* ===================================================================== *)
(** ** The matcher and the texts an expression denotes                    *)
(* ===================================================================== *)

Lemma stripPrefix_Some t s rest :
  stripPrefix t s = Some rest <-> s = t +:+ rest.
Proof.
  split.
  - revert s. induction t as [|c t IH]; intros s; simpl.
    + by intros [= ->].
    + destruct s as [|d s]; [done|].
      destruct (Ascii.eqb_spec c d) as [->|]; [|done].
      intros ->%IH. done.
  - intros ->. apply stripPrefix_append.
Qed.

Lemma star_is_Some {A} class s (k : string -> option A) :
  is_Some (star class s k)
  <-> exists s1 s2, s = s1 +:+ s2 /\ allBytes class s1 = true
                    /\ is_Some (k s2).
Proof.
  induction s as [|c s IH]; simpl.
  - split.
    + intros H. split_at EmptyString EmptyString.
    + intros (s1 & s2 & Heq & _ & H). destruct s1; [|by inversion Heq].
      cbv [String.append] in Heq. by subst.
  - split.
    + destruct (class c) eqn:Hc.
      * destruct (star class s k) eqn:Hs.
        -- intros _. destruct (proj1 IH) as (s1 & s2 & -> & H1 & H2); [done|].
           exists (String c s1), s2. simpl. by rewrite Hc.
        -- intros H. split_at EmptyString (String c s).
      * intros H. split_at EmptyString (String c s).
    + intros (s1 & s2 & Heq & H1 & H2). destruct s1 as [|d s1].
      * cbv [String.append] in Heq. subst s2.
        destruct (class c); [|done]. by destruct (star class s k).
      * change (String c s = String d (s1 +:+ s2)) in Heq.
        injection Heq as -> ->. simpl in H1.
        apply andb_prop in H1 as [-> H1].
        destruct (proj2 IH) as [x ->]; [split_at s1 s2|]. done.
Qed.

Lemma run_Matches r : forall s caps k,
  insensitive k ->
  is_Some (run r s caps k)
  <-> exists s1 s2, s = s1 +:+ s2 /\ Matches r s1 /\ is_Some (k s2 caps).
Proof.
  induction r as [text|class|class|r1 IH1 r2 IH2|r1 IH1 r2 IH2|r IH|i r IH];
    intros s caps k Hk.
  - simpl. split.
    + destruct (stripPrefix text s) as [rest|] eqn:Hs; [|by intros []].
      apply stripPrefix_Some in Hs as ->. intros H.
      exists text, rest. split; [reflexivity|]. split; [constructor|done].
    + intros (s1 & s2 & -> & Hm & H). inversion Hm; subst.
      by rewrite stripPrefix_append.
  - simpl. rewrite star_is_Some. split.
    + intros (s1 & s2 & -> & H1 & H2). exists s1, s2. by repeat constructor.
    + intros (s1 & s2 & -> & Hm & H). inversion Hm; subst. split_at s1 s2.
  - simpl. split.
    + destruct s as [|c s]; [by intros []|].
      destruct (class c) eqn:Hc; [|by intros []].
      intros (s1 & s2 & -> & H1 & H2)%star_is_Some.
      exists (String c s1), s2. split; [reflexivity|]. split; [|done].
      constructor; [done|]. simpl. by rewrite Hc.
    + intros (s1 & s2 & -> & Hm & H).
      inversion Hm as [| |? ? Hne Hall| | | | | |]; subst.
      destruct s1 as [|c s1]; [done|]. simpl in *.
      apply andb_prop in Hall as [-> Hall].
      apply star_is_Some. split_at s1 s2.
  - rewrite run_Seq, IH1.
    + split.
      * intros (s1 & s2 & -> & Hm1 & H).
        apply IH2 in H as (s3 & s4 & -> & Hm2 & H); [|done].
        exists (s1 +:+ s3), s4. rewrite append_assoc.
        split; [done|]. split; [by constructor|done].
      * intros (s12 & s3 & -> & Hm & H). inversion Hm; subst.
        exists s1, (s2 +:+ s3). rewrite append_assoc. split; [done|].
        split; [done|]. apply IH2; [done|]. split_at s2 s3.
    + intros rest caps1 caps2 H.
      apply IH2 in H as (s3 & s4 & -> & Hm2 & H); [|done].
      apply IH2; [done|]. exists s3, s4. split; [reflexivity|]. split; [done|].
      by apply (Hk _ caps1).
  - simpl. split.
    + destruct (run r1 s caps k) eqn:H1.
      * intros _. destruct (proj1 (IH1 s caps k Hk)) as (s1 & s2 & -> & Hm & H).
        { by rewrite H1. }
        exists s1, s2. split; [reflexivity|]. split; [by constructor|done].
      * intros (s1 & s2 & -> & Hm & H)%IH2; [|done].
        exists s1, s2. split; [reflexivity|].
        split; [by apply Matches_Alt_r|done].
    + intros (s1 & s2 & -> & Hm & H). inversion Hm; subst.
      * destruct (proj2 (IH1 (s1 +:+ s2) caps k Hk)) as [x ->]; [|done].
        split_at s1 s2.
      * destruct (run r1 (s1 +:+ s2) caps k); [done|].
        apply IH2; [done|]. split_at s1 s2.
  - simpl. split.
    + destruct (run r s caps k) eqn:H1.
      * intros _. destruct (proj1 (IH s caps k Hk)) as (s1 & s2 & -> & Hm & H).
        { by rewrite H1. }
        exists s1, s2. split; [reflexivity|]. split; [by constructor|done].
      * intros H. exists EmptyString, s. split; [reflexivity|].
        split; [constructor|done].
    + intros (s1 & s2 & -> & Hm & H). inversion Hm; subst.
      * change (EmptyString +:+ s2) with s2.
        by destruct (run r s2 caps k).
      * destruct (proj2 (IH (s1 +:+ s2) caps k Hk)) as [x ->]; [|done].
        split_at s1 s2.
  - simpl. rewrite IH.
    + split.
      * intros (s1 & s2 & -> & Hm & H). exists s1, s2.
        split; [done|]. split; [by constructor|]. by apply (Hk _ _ caps) in H.
      * intros (s1 & s2 & -> & Hm & H). inversion Hm; subst.
        exists s1, s2. split; [reflexivity|]. split; [done|].
        by apply (Hk _ caps).
    + intros rest caps1 caps2. apply Hk.
Qed.

Lemma append_nil_r (s : string) : s +:+ EmptyString = s.
Proof.
  induction s as [|c s IH]; [done|].
  change (String c (s +:+ EmptyString) = String c s). by rewrite IH.
Qed.

Lemma atEnd_insensitive : insensitive atEnd.
Proof. intros rest caps1 caps2. by destruct rest. Qed.

(** The matcher decides the language of the expression: there is a match
    exactly when the whole text is one of the texts it denotes. *)
Lemma FindStringSubmatch_Matches r s :
  FindStringSubmatch r s <> [] <-> Matches r s.
Proof.
  unfold FindStringSubmatch.
  pose proof (run_Matches r s (replicate (S (NumSubexp r)) EmptyString)
                atEnd atEnd_insensitive) as H.
  destruct (run r s _ atEnd) as [caps|].
  - split; [intros _|done].
    destruct (proj1 H) as (s1 & s2 & -> & Hm & Hend); [done|].
    destruct s2; [|by destruct Hend]. by rewrite append_nil_r.
  - split; [done|]. intros Hm.
    destruct (proj2 H) as [x Hx]; [|done].
    exists s, EmptyString. by rewrite append_nil_r.
Qed.

Lemma isDirective_Matches c :
  isDirective c = true <-> Matches directiveRegexp (ast.Text c).
Proof.
  rewrite <- FindStringSubmatch_Matches. unfold isDirective.
  destruct (FindStringSubmatch directiveRegexp (ast.Text c)); simpl.
  - split; [done|]. by intros [].
  - done.
Qed.

(* ===================================================================== *)
(** ** Facts about the engine                                             *)
(* ===================================================================== *)

Lemma handleConfig_insert isEnabled line name (m : rulesMap) :
  handleConfig isEnabled line name m
  = <[name := appendEvent isEnabled line (default [] (m !! name))]> m.
Proof.
  unfold handleConfig, appendEvent.
  destruct (m !! name) as [existing|] eqn:Hm; simpl.
  - destruct (_ || _); [|done]. by rewrite insert_id.
  - destruct isEnabled; simpl; [done|]. by rewrite insert_insert_eq.
Qed.

Lemma ruleResultLoop_cons f R i e rest acc :
  ruleResultLoop f R i (e :: rest) acc
  = ruleResultLoop f R (S i) rest
      (if (i mod 2 =? 0)%nat
       then acc ++ [lineInterval f R (position e) MaxInt32]
       else alter (DisabledInterval.withToLine (position e))
              (length acc - 1)%nat acc).
Proof. done. Qed.

Lemma ruleResultLoop_pairs f R events i acc :
  (i mod 2 = 0)%nat ->
  ruleResultLoop f R i events acc = acc ++ pairIntervals f R events.
Proof.
  revert i acc.
  induction events as [events IH] using (induction_ltof1 _ length).
  unfold ltof in IH. intros i acc Hi.
  assert ((i mod 2 =? 0)%nat = true) as Hi' by by apply Nat.eqb_eq.
  assert ((S i mod 2 =? 0)%nat = false) as HSi.
  { apply Nat.eqb_neq. rewrite <- Nat.add_1_r.
    rewrite Nat.Div0.add_mod, Hi. done. }
  destruct events as [|e1 [|e2 rest]].
  - simpl. by rewrite app_nil_r.
  - rewrite ruleResultLoop_cons, Hi'. done.
  - rewrite !ruleResultLoop_cons, Hi', HSi.
    rewrite length_app. simpl length.
    replace (length acc + 1 - 1)%nat with (length acc + 0)%nat by lia.
    rewrite alter_app_r.
    rewrite IH; [| simpl; lia |].
    + by rewrite <- app_assoc.
    + replace (S (S i)) with (i + 1 * 2)%nat by lia.
      by rewrite Nat.Div0.mod_add.
Qed.

Lemma foldl_insert_lookup {A B} (F : string -> A -> B)
    (entries : list (string * A)) (res : gmap string B) name :
  NoDup entries.*1 ->
  foldl (fun (result : gmap string B) entry =>
           let '(n, a) := entry in <[n := F n a]> result) res entries !! name
  = match (list_to_map entries : gmap string A) !! name with
    | Some a => Some (F name a)
    | None => res !! name
    end.
Proof.
  revert res. induction entries as [|[n a] entries IH]; intros res Hnd; simpl.
  - by rewrite lookup_empty.
  - apply NoDup_cons in Hnd as [Hn Hnd]. rewrite IH by done.
    destruct (decide (n = name)) as [->|Hne].
    + rewrite lookup_insert_eq.
      rewrite (not_elem_of_list_to_map_1 (M := gmap string)) by done.
      by rewrite lookup_insert_eq.
    + rewrite !lookup_insert_ne by done. done.
Qed.

Lemma getEnabledDisabledIntervals_lookup range f (m : rulesMap) name :
  validRange range ->
  getEnabledDisabledIntervals range f m !! name
  = pairIntervals f name <$> m !! name.
Proof.
  intros Hrange. unfold getEnabledDisabledIntervals.
  rewrite (foldl_insert_lookup (fun n arr => ruleResultLoop f n 0 arr [])).
  - rewrite (list_to_map_proper (range m) (map_to_list m)).
    + rewrite list_to_map_to_list. rewrite lookup_empty.
      destruct (m !! name); simpl; [|done].
      by rewrite ruleResultLoop_pairs.
    + rewrite (Hrange m). apply NoDup_fst_map_to_list.
    + apply Hrange.
  - rewrite (Hrange m). apply NoDup_fst_map_to_list.
Qed.

Lemma getEnabledDisabledIntervals_fmap range f (m : rulesMap) :
  validRange range ->
  getEnabledDisabledIntervals range f m
  = map_imap (fun name events => Some (pairIntervals f name events)) m.
Proof.
  intros Hrange. apply map_eq. intros name.
  rewrite getEnabledDisabledIntervals_lookup by done.
  rewrite map_lookup_imap. by destruct (m !! name).
Qed.

Lemma includeLoop_existsb fStart fEnd intervals :
  includeLoop fStart fEnd intervals
  = negb (existsb (fun d => lineInInterval fStart d || lineInInterval fEnd d)
            intervals).
Proof.
  induction intervals as [|d intervals IH]; simpl; [done|].
  unfold lineInInterval at 1 2. rewrite !Z.geb_leb.
  destruct (_ || _); simpl; [done|]. apply IH.
Qed.

Lemma filterFailures_filter failures (m : disabledIntervalsMap) :
  filterFailures failures m
  = List.filter (fun failure => negb (suppressed m failure)) failures.
Proof.
  unfold filterFailures.
  cut (forall acc,
         foldl (fun result failure =>
           match m !! Failure.RuleName failure with
           | None => result ++ [failure]
           | Some intervals =>
               if includeLoop (token.Line (Start (Failure.Position failure)))
                    (token.Line (End_ (Failure.Position failure))) intervals
               then result ++ [failure] else result
           end) acc failures
         = acc ++ List.filter (fun failure => negb (suppressed m failure))
                    failures).
  { intros H. apply (H []). }
  induction failures as [|fl failures IH]; intros acc; simpl.
  - by rewrite app_nil_r.
  - rewrite IH. unfold suppressed at 2.
    destruct (m !! Failure.RuleName fl) as [intervals|]; simpl.
    + rewrite includeLoop_existsb. unfold startLine, endLine.
      destruct (existsb _ _); simpl; [done|]. by rewrite <- app_assoc.
    + by rewrite <- app_assoc.
Qed.

Lemma Split_no_sep (s : string) sep :
  allBytes (fun c => negb (Ascii.eqb c sep)) s = true ->
  strings.Split s sep = [s].
Proof.
  induction s as [|c s IH]; simpl; [done|].
  intros [Hc Hs]%andb_prop. apply negb_true_iff in Hc as ->.
  by rewrite IH.
Qed.

Lemma TrimLeft_stop (s cutset : string) :
  stopsAt (strings.ContainsByte cutset) s = true ->
  strings.TrimLeft s cutset = s.
Proof. destruct s as [|c s]; simpl; [done|]. by intros ->%negb_true_iff. Qed.


Lemma TrimRight_none (s cutset : string) :
  allBytes (fun c => negb (strings.ContainsByte cutset c)) s = true ->
  strings.TrimRight s cutset = s.
Proof.
  induction s as [|c s IH]; simpl; [done|].
  intros [Hc Hs]%andb_prop. rewrite IH by done.
  apply negb_true_iff in Hc as ->. by destruct s.
Qed.

Lemma Trim_none (s cutset : string) :
  allBytes (fun c => negb (strings.ContainsByte cutset c)) s = true ->
  strings.Trim s cutset = s.
Proof.
  intros Hs. unfold strings.Trim. rewrite TrimLeft_stop.
  - by apply TrimRight_none.
  - destruct s as [|c s]; simpl in *; [done|].
    by apply andb_prop in Hs as [-> _].
Qed.

Lemma notSpace_not_LF c :
  notSpace c = true -> negb (strings.ContainsByte LF c) = true.
Proof.
  unfold notSpace, space, LF. simpl.
  destruct (Ascii.eqb_spec c (ascii_of_nat 10)) as [->|]; [done|done].
Qed.

Lemma collectRuleNames_one R :
  ruleNameOk R = true ->
  collectRuleNames (strings.Split R ","%char) = [R].
Proof.
  intros HR. pose proof (ruleNameOk_inv _ HR) as (Hne & Hsp & Hcomma).
  rewrite Split_no_sep by done. unfold collectRuleNames. simpl.
  rewrite Trim_none.
  - by apply String.eqb_neq in Hne as ->.
  - revert Hsp. apply allBytes_impl, notSpace_not_LF.
Qed.



(** The engine's step on a directive that names one rule. *)
Lemma handleCommentLine_directive f rules must line st c action modifier R :
  isAction action -> isModifier modifier -> ruleNameOk R = true ->
  ast.Text c = directiveText action modifier R ->
  must && String.eqb action "disable" = false ->
  handleCommentLine f rules must line st c
  = mkEngine (handleRules modifier (String.eqb action "enable") line [R]
                (enabledDisabledRulesMap st))
      (failures st).
Proof.
  intros Ha Hm HR Htext Hmust. unfold handleCommentLine.
  pose proof (ruleNameOk_inv _ HR) as (Hne & Hsp & _).
  rewrite Htext, FindStringSubmatch_directive by done.
  unfold index. simpl nth. simpl (length _ =? 0)%nat. cbv iota.
  rewrite collectRuleNames_one by done. rewrite Hmust. done.
Qed.



Lemma handleCommentLine_ignored f rules must line st c :
  isDirective c = false -> handleCommentLine f rules must line st c = st.
Proof.
  unfold isDirective, handleCommentLine. intros H%negb_false_iff.
  by rewrite H.
Qed.

Lemma handleCommentLine_filter f rules must line st cs :
  foldl (handleCommentLine f rules must line) st cs
  = foldl (handleCommentLine f rules must line) st (List.filter isDirective cs).
Proof.
  revert st. induction cs as [|c cs IH]; intros st; simpl; [done|].
  destruct (isDirective c) eqn:Hc; simpl; [done|].
  by rewrite handleCommentLine_ignored.
Qed.

Lemma scanComments_directives f rules must st :
  scanComments f rules must st
  = foldl (fun st lc => handleCommentLine f rules must lc.1 st lc.2)
      st (directives f).
Proof.
  unfold scanComments, directives.
  generalize (ast.Comments (File.AST f)). intros groups. revert st.
  induction groups as [|g groups IH]; intros st; simpl; [done|].
  rewrite foldl_app, IH. f_equal.
  unfold handleComment. rewrite handleCommentLine_filter.
  fold (groupLine f g).
  generalize (List.filter isDirective (ast.List g)). intros cs. revert st.
  induction cs as [|c cs IHcs]; intros st; simpl; [done|]. apply IHcs.
Qed.

Lemma handleRules_one modifier isEnabled line R (m : rulesMap) :
  handleRules modifier isEnabled line [R] m
  = if String.eqb modifier "line" then
      handleConfig (negb isEnabled) line R (handleConfig isEnabled line R m)
    else if String.eqb modifier "next-line" then
      handleConfig (negb isEnabled) (wrapInt (line + 1)) R
        (handleConfig isEnabled (wrapInt (line + 1)) R m)
    else handleConfig isEnabled line R m.
Proof. done. Qed.

Lemma handleRules_disable line R :
  handleRules "" false line [R] ∅ = {[R := [disableAt line]]}.
Proof.
  rewrite handleRules_one. simpl. rewrite handleConfig_insert.
  rewrite lookup_empty. done.
Qed.

Lemma handleRules_enable_after_disable line1 line2 R :
  handleRules "" true line2 [R] {[R := [disableAt line1]]}
  = {[R := [disableAt line1; enableAt line2]]}.
Proof.
  rewrite handleRules_one. simpl. rewrite handleConfig_insert.
  rewrite lookup_singleton_eq. simpl.
  unfold appendEvent. simpl. apply insert_singleton_eq.
Qed.


Lemma handleRules_disable_line line R :
  handleRules "line" false line [R] ∅
  = {[R := [disableAt line; enableAt line]]}.
Proof.
  rewrite handleRules_one. simpl. rewrite !handleConfig_insert.
  rewrite lookup_empty. simpl. rewrite lookup_insert_eq. simpl.
  unfold appendEvent. simpl. apply insert_insert_eq.
Qed.

Lemma handleRules_disable_next_line line R :
  handleRules "next-line" false line [R] ∅
  = {[R := [disableAt (wrapInt (line + 1)); enableAt (wrapInt (line + 1))]]}.
Proof.
  rewrite handleRules_one. simpl. rewrite !handleConfig_insert.
  rewrite lookup_empty. simpl. rewrite lookup_insert_eq. simpl.
  unfold appendEvent. simpl. apply insert_insert_eq.
Qed.

Lemma getEnabledDisabledIntervals_singleton range f R events :
  validRange range ->
  getEnabledDisabledIntervals range f {[R := events]}
  = {[R := pairIntervals f R events]}.
Proof.
  intros Hrange. apply map_eq. intros name.
  rewrite getEnabledDisabledIntervals_lookup by done.
  destruct (decide (R = name)) as [->|Hne].
  - by rewrite !lookup_singleton_eq.
  - by rewrite !lookup_singleton_ne.
Qed.

Lemma suppressed_singleton R intervals failure :
  suppressed {[R := intervals]} failure
  = String.eqb (Failure.RuleName failure) R
    && existsb (fun d => lineInInterval (startLine failure) d
                         || lineInInterval (endLine failure) d) intervals.
Proof.
  unfold suppressed.
  destruct (String.eqb_spec (Failure.RuleName failure) R) as [->|Hne].
  - by rewrite lookup_singleton_eq.
  - by rewrite lookup_singleton_ne.
Qed.

Lemma disabledIntervals_two range f rules must R L1 L2 c1 c2 :
  validRange range -> ruleNameOk R = true ->
  directives f = [(L1, c1); (L2, c2)] ->
  ast.Text c1 = directiveText "disable" "" R ->
  ast.Text c2 = directiveText "enable" "" R ->
  must = false ->
  disabledIntervals range f rules must
  = ({[R := [lineInterval f R L1 L2]]}, []).
Proof.
  intros Hrange HR Hdir H1 H2 ->. unfold disabledIntervals.
  rewrite scanComments_directives, Hdir. simpl foldl.
  rewrite (handleCommentLine_directive _ _ _ _ _ c1 "disable" "" R);
    [|by right|by left|done..].
  rewrite (handleCommentLine_directive _ _ _ _ _ c2 "enable" "" R);
    [|by left|by left|done..].
  change (String.eqb "disable" "enable") with false.
  change (String.eqb "enable" "enable") with true.
  cbn [enabledDisabledRulesMap failures fst snd].
  rewrite handleRules_disable, handleRules_enable_after_disable.
  by rewrite getEnabledDisabledIntervals_singleton.
Qed.

(* ===================================================================== *)
(** ** Facts about the scan and the pipeline                              *)
(* ===================================================================== *)

Lemma validRange_map_to_list : validRange map_to_list.
Proof. intros m. reflexivity. Qed.

Lemma validRange_reverse : validRange reverseRange.
Proof. intros m. unfold reverseRange. apply reverse_Permutation. Qed.

Lemma within_lineInterval f R from to line :
  lineInInterval line (lineInterval f R from to) = within from to line.
Proof. done. Qed.

Lemma normalize_inr f rule failures :
  (forall x, x ∈ failures -> Failure.IsInternal x = false) ->
  normalize f rule failures = inr (map (normalized f rule) failures).
Proof.
  induction failures as [|fl failures IH]; intros Hall; simpl; [done|].
  rewrite (Hall fl) by apply list_elem_of_here.
  rewrite IH by (intros x Hx; apply Hall; by apply list_elem_of_further).
  f_equal. f_equal. unfold normalized.
  destruct fl as [msg name pos node conf internal]. simpl.
  destruct (String.eqb name ""), node; done.
Qed.

Lemma normalize_inl f rule before fl after :
  (forall x, x ∈ before -> Failure.IsInternal x = false) ->
  Failure.IsInternal fl = true ->
  normalize f rule (before ++ fl :: after) = inl (Failure.Failure fl).
Proof.
  intros Hbefore Hfl. induction before as [|x before IH]; simpl.
  - by rewrite Hfl.
  - rewrite (Hbefore x) by apply list_elem_of_here.
    rewrite IH; [done|]. intros y Hy. apply Hbefore.
    by apply list_elem_of_further.
Qed.

Lemma lintRules_cons f config di rule rest sent :
  lintRules f config di (rule :: rest) sent
  = if applies f config rule then
      match normalize f rule (rawFailures f config rule) with
      | inl err => (sent, Some err)
      | inr currentFailures =>
          lintRules f config di rest
            (sent ++ confidenceGate config
                       (filterFailures currentFailures di))
      end
    else lintRules f config di rest sent.
Proof.
  unfold applies, rawFailures, ruleConfigOf. simpl.
  by destruct (RuleConfig.MustExclude _ _).
Qed.

Lemma lintRules_app f config di pre rest sent :
  (forall rule, rule ∈ pre -> applies f config rule = true ->
     forall x, x ∈ rawFailures f config rule ->
               Failure.IsInternal x = false) ->
  lintRules f config di (pre ++ rest) sent
  = lintRules f config di rest (lintRules f config di pre sent).1
  /\ (lintRules f config di pre sent).2 = None.
Proof.
  revert sent. induction pre as [|rule pre IH]; intros sent Hpre; [done|].
  rewrite <- app_comm_cons, !lintRules_cons.
  assert (forall rule', rule' ∈ pre -> applies f config rule' = true ->
            forall x, x ∈ rawFailures f config rule' ->
                      Failure.IsInternal x = false) as Hpre'.
  { intros rule' Hin. apply Hpre. by apply list_elem_of_further. }
  destruct (applies f config rule) eqn:Happ; [|by apply IH].
  rewrite normalize_inr by (apply (Hpre rule); [apply list_elem_of_here|done]).
  by apply IH.
Qed.

Lemma last_cons_cons {A} (x y : A) l : last (x :: y :: l) = last (y :: l).
Proof. done. Qed.

Lemma appendEvent_startsDisabled isEnabled line events :
  startsDisabled events -> startsDisabled (appendEvent isEnabled line events).
Proof.
  unfold appendEvent. destruct events as [|e events]; simpl.
  - by destruct isEnabled.
  - intros He. by destruct (_ || _).
Qed.

Lemma appendEvent_enable_pending line events :
  startsDisabled events -> pendingState events = true ->
  appendEvent true line events = events.
Proof.
  unfold appendEvent, pendingState.
  destruct events as [|e1 [|e2 events]].
  - done.
  - simpl. by intros -> [=].
  - intros _. rewrite last_cons_cons.
    destruct (last (e2 :: events)) as [e|] eqn:Hlast;
      [|by apply last_None in Hlast].
    intros ->. done.
Qed.

Lemma appendEvent_disable_pending line events :
  length events <> 1%nat -> pendingState events = false ->
  appendEvent false line events = events.
Proof.
  unfold appendEvent, pendingState.
  destruct events as [|e1 [|e2 events]]; [done|done|].
  intros _. rewrite last_cons_cons.
  destruct (last (e2 :: events)) as [e|] eqn:Hlast;
    [|by apply last_None in Hlast].
  intros ->. done.
Qed.

Lemma foldl_rule_names (rules : list Rule.t) (names : list string) :
  foldl (fun names rule => names ++ [Rule.Name rule]) names rules
  = names ++ map Rule.Name rules.
Proof.
  revert names. induction rules as [|rule rules IH]; intros names; simpl.
  - by rewrite app_nil_r.
  - by rewrite IH, <- app_assoc.
Qed.

Lemma handleCommentLine_applyDirective f rules must line st c :
  isDirective c = true ->
  handleCommentLine f rules must line st c
  = applyDirective f rules must line st c
      (index (FindStringSubmatch directiveRegexp (ast.Text c)) directivePos)
      (index (FindStringSubmatch directiveRegexp (ast.Text c)) modifierPos)
      (index (FindStringSubmatch directiveRegexp (ast.Text c)) rulesPos)
      (index (FindStringSubmatch directiveRegexp (ast.Text c)) reasonPos).
Proof.
  unfold isDirective, handleCommentLine, applyDirective, targetRules.
  intros ->%negb_true_iff.
  destruct (_ && _ && _); [done|].
  f_equal. f_equal.
  destruct (collectRuleNames _) as [|name names]; simpl; [|done].
  by rewrite foldl_rule_names.
Qed.

Lemma disabledIntervals_one range f rules must L c action modifier R :
  validRange range -> ruleNameOk R = true ->
  isAction action -> isModifier modifier ->
  directives f = [(L, c)] ->
  ast.Text c = directiveText action modifier R ->
  must && String.eqb action "disable" = false ->
  disabledIntervals range f rules must
  = (getEnabledDisabledIntervals range f
       (handleRules modifier (String.eqb action "enable") L [R] ∅), []).
Proof.
  intros Hrange HR Ha Hm Hdir Htext Hmust. unfold disabledIntervals.
  rewrite scanComments_directives, Hdir. simpl foldl.
  by rewrite (handleCommentLine_directive _ _ _ _ _ c action modifier R).
Qed.

Lemma filterFailures_empty failures : filterFailures failures ∅ = failures.
Proof.
  rewrite filterFailures_filter.
  induction failures as [|fl failures IH]; simpl; [done|].
  unfold suppressed at 1. rewrite lookup_empty. simpl. by rewrite IH.
Qed.

Lemma filterFailures_singleton failures R intervals :
  filterFailures failures {[R := intervals]}
  = List.filter
      (fun failure =>
         negb (String.eqb (Failure.RuleName failure) R
               && existsb (fun d => lineInInterval (startLine failure) d
                                    || lineInInterval (endLine failure) d)
                    intervals))
      failures.
Proof.
  rewrite filterFailures_filter. apply List.filter_ext. intros failure.
  by rewrite suppressed_singleton.
Qed.

Lemma wrapInt_small z : - 2 ^ 63 <= z < 2 ^ 63 -> wrapInt z = z.
Proof.
  unfold wrapInt. change (2 ^ 64) with (2 * 2 ^ 63).
  generalize (2 ^ 63). intros B HB. rewrite Z.mod_small; lia.
Qed.

Lemma within_same line x : within line line x = (x =? line).
Proof. unfold within. lia. Qed.

Lemma pairIntervals_app_even f R events more :
  (length events mod 2 = 0)%nat ->
  pairIntervals f R (events ++ more)
  = pairIntervals f R events ++ pairIntervals f R more.
Proof.
  revert more.
  induction events as [events IH] using (induction_ltof1 _ length).
  unfold ltof in IH. intros more Hlen.
  destruct events as [|e1 [|e2 events]]; [done|done|].
  change ((e1 :: e2 :: events) ++ more) with (e1 :: e2 :: (events ++ more)).
  cbn [pairIntervals]. rewrite IH; [done|simpl; lia|].
  simpl length in Hlen.
  replace (S (S (length events))) with (length events + 1 * 2)%nat in Hlen
    by lia.
  by rewrite Nat.Div0.mod_add in Hlen.
Qed.

Lemma existsb_app_last {A} (p : A -> bool) l x :
  p x = true -> existsb p (l ++ [x]) = true.
Proof. intros Hx. rewrite existsb_app. simpl. rewrite Hx. apply orb_true_r. Qed.

Lemma appendEvent_toggle_pair line events :
  pendingState events = true ->
  appendEvent true line (appendEvent false line events)
  = events ++ [disableAt line; enableAt line].
Proof.
  intros Hpending.
  assert (appendEvent false line events = events ++ [disableAt line]) as ->.
  { unfold appendEvent, pendingState in *.
    destruct (last events) as [e|]; [rewrite Hpending|];
      by rewrite !andb_false_r. }
  unfold appendEvent. rewrite last_snoc, length_app. simpl.
  rewrite andb_false_r. simpl.
  replace (length events + 1 =? 0)%nat with false
    by (symmetry; apply Nat.eqb_neq; lia).
  by rewrite <- app_assoc.
Qed.

Lemma handleConfig_twice b1 b2 line name (m : rulesMap) :
  handleConfig b2 line name (handleConfig b1 line name m)
  = <[name := appendEvent b2 line
                (appendEvent b1 line (default [] (m !! name)))]> m.
Proof.
  rewrite !handleConfig_insert, lookup_insert_eq. simpl.
  apply insert_insert_eq.
Qed.

Lemma handleRules_line_pending line R (m : rulesMap) :
  pendingState (default [] (m !! R)) = true ->
  handleRules "line" false line [R] m
  = <[R := default [] (m !! R) ++ [disableAt line; enableAt line]]> m.
Proof.
  intros Hpending. rewrite handleRules_one. simpl.
  by rewrite handleConfig_twice, appendEvent_toggle_pair.
Qed.

Lemma handleRules_next_line_pending line R (m : rulesMap) :
  pendingState (default [] (m !! R)) = true ->
  handleRules "next-line" false line [R] m
  = <[R := default [] (m !! R)
           ++ [disableAt (wrapInt (line + 1));
               enableAt (wrapInt (line + 1))]]> m.
Proof.
  intros Hpending. rewrite handleRules_one. simpl.
  by rewrite handleConfig_twice, appendEvent_toggle_pair.
Qed.

Lemma pairIntervals_toggle_pair f R events line :
  (length events mod 2 = 0)%nat ->
  pairIntervals f R (events ++ [disableAt line; enableAt line])
  = pairIntervals f R events ++ [lineInterval f R line line].
Proof. intros Hlen. by rewrite pairIntervals_app_even. Qed.

Lemma normalize_inl_iff f rule failures :
  (exists err, normalize f rule failures = inl err)
  <-> exists x, x ∈ failures /\ Failure.IsInternal x = true.
Proof.
  induction failures as [|fl failures IH]; simpl.
  - split; [by intros [err ?]|]. by intros (x & Hx%elem_of_nil & _).
  - destruct (Failure.IsInternal fl) eqn:Hfl.
    + split; [|by eexists]. intros _. exists fl. split; [|done].
      apply list_elem_of_here.
    + destruct (normalize f rule failures) as [err|rest].
      * split; [|by eexists]. intros _.
        destruct (proj1 IH) as (x & Hx & Hint); [by eexists|].
        exists x. split; [|done]. by apply list_elem_of_further.
      * split; [by intros [err ?]|]. intros (x & Hx & Hint).
        apply elem_of_cons in Hx as [->|Hx]; [congruence|].
        destruct (proj2 IH) as [err Herr]; [by exists x|]. discriminate.
Qed.

Lemma lintRules_error_iff f config di rules sent :
  (lintRules f config di rules sent).2 <> None
  <-> exists rule, rule ∈ rules /\ applies f config rule = true
        /\ exists x, x ∈ rawFailures f config rule
                     /\ Failure.IsInternal x = true.
Proof.
  revert sent. induction rules as [|rule rules IH]; intros sent.
  - simpl. split; [done|]. by intros (rule & Hr%elem_of_nil & _).
  - rewrite lintRules_cons. destruct (applies f config rule) eqn:Happ.
    + destruct (normalize f rule (rawFailures f config rule)) as [err|rest]
        eqn:Hnorm.
      * split; [|done]. intros _. exists rule.
        split; [apply list_elem_of_here|]. split; [done|].
        apply (normalize_inl_iff f rule). by exists err.
      * rewrite IH. split.
        -- intros (rule' & Hin & Hrest). exists rule'.
           split; [by apply list_elem_of_further|done].
        -- intros (rule' & Hin & Happ' & Hx).
           apply elem_of_cons in Hin as [->|Hin]; [|by exists rule'].
           apply (normalize_inl_iff f rule) in Hx as [err Herr].
           congruence.
    + rewrite IH. split.
      * intros (rule' & Hin & Hrest). exists rule'.
        split; [by apply list_elem_of_further|done].
      * intros (rule' & Hin & Happ' & Hx).
        apply elem_of_cons in Hin as [->|Hin]; [congruence|by exists rule'].
Qed.

Lemma handleConfig_wellStarted isEnabled line name m :
  wellStarted m -> wellStarted (handleConfig isEnabled line name m).
Proof.
  intros Hm name' events. rewrite handleConfig_insert.
  destruct (decide (name = name')) as [->|Hne].
  - rewrite lookup_insert_eq. intros [= <-].
    apply appendEvent_startsDisabled.
    destruct (m !! name') as [existing|] eqn:Hex; [|done].
    by apply (Hm name').
  - rewrite lookup_insert_ne by done. apply Hm.
Qed.

Lemma handleRules_wellStarted modifier isEnabled line ruleNames m :
  wellStarted m ->
  wellStarted (handleRules modifier isEnabled line ruleNames m).
Proof.
  unfold handleRules. revert m.
  induction ruleNames as [|name ruleNames IH]; intros m Hm; simpl; [done|].
  apply IH.
  destruct (String.eqb modifier "line"); [|destruct (String.eqb _ _)];
    repeat apply handleConfig_wellStarted; done.
Qed.

Lemma handleCommentLine_wellStarted f rules must line st c :
  wellStarted (enabledDisabledRulesMap st) ->
  wellStarted
    (enabledDisabledRulesMap (handleCommentLine f rules must line st c)).
Proof.
  intros Hst. destruct (isDirective c) eqn:Hc.
  - rewrite handleCommentLine_applyDirective by done.
    unfold applyDirective. destruct (_ && _ && _); [done|].
    by apply handleRules_wellStarted.
  - by rewrite handleCommentLine_ignored.
Qed.

Lemma scanComments_wellStarted f rules must :
  wellStarted
    (enabledDisabledRulesMap (scanComments f rules must (mkEngine ∅ []))).
Proof.
  rewrite scanComments_directives.
  assert (wellStarted (enabledDisabledRulesMap (mkEngine ∅ []))) as Hinit.
  { intros name events. simpl. by rewrite lookup_empty. }
  revert Hinit. generalize (mkEngine ∅ []).
  induction (directives f) as [|[line c] ds IH]; intros st Hst; simpl;
    [done|].
  apply IH. by apply handleCommentLine_wellStarted.
Qed.

Lemma lintRules_sent f config di rules sent :
  (forall rule, rule ∈ rules -> applies f config rule = true ->
     forall x, x ∈ rawFailures f config rule ->
               Failure.IsInternal x = false) ->
  lintRules f config di rules sent
  = (sent ++ flat_map
               (fun rule =>
                  if applies f config rule
                  then confidenceGate config
                         (filterFailures
                            (map (normalized f rule)
                               (rawFailures f config rule)) di)
                  else []) rules,
     None).
Proof.
  revert sent. induction rules as [|rule rules IH]; intros sent Hrules.
  - simpl. by rewrite app_nil_r.
  - rewrite lintRules_cons. cbn [flat_map].
    assert (forall rule', rule' ∈ rules -> applies f config rule' = true ->
              forall x, x ∈ rawFailures f config rule' ->
                        Failure.IsInternal x = false) as Hrules'.
    { intros rule' Hin. apply Hrules. by apply list_elem_of_further. }
    destruct (applies f config rule) eqn:Happ.
    + rewrite normalize_inr
        by (apply (Hrules rule); [apply list_elem_of_here|done]).
      rewrite IH by done. by rewrite <- app_assoc.
    + by rewrite IH.
Qed.

Lemma FindStringSubmatch_unnamed action modifier :
  isAction action -> isModifier modifier ->
  FindStringSubmatch directiveRegexp
    ("//revive:" +:+ action +:+ dashed modifier)
  = ["//revive:" +:+ action +:+ dashed modifier; action; modifier; ""; ""].
Proof.
  intros Ha Hm. unfold FindStringSubmatch.
  change (S (NumSubexp directiveRegexp)) with 5%nat.
  rewrite <- (append_nil_r (dashed modifier)) at 1.
  rewrite (run_directive_head action modifier EmptyString
             [""; action; modifier; ""; ""]); done.
Qed.

(** A directive in the middle of a file, and the rules it is not about. *)
Lemma handleConfig_frame isEnabled line name m name' :
  name' <> name -> handleConfig isEnabled line name m !! name' = m !! name'.
Proof.
  intros Hne. rewrite handleConfig_insert. by rewrite lookup_insert_ne.
Qed.

Lemma handleRules_frame modifier isEnabled line ruleNames m name :
  name ∉ ruleNames ->
  handleRules modifier isEnabled line ruleNames m !! name = m !! name.
Proof.
  unfold handleRules. revert m.
  induction ruleNames as [|name' ruleNames IH]; intros m Hnot; simpl; [done|].
  apply not_elem_of_cons in Hnot as [Hne Hnot]. rewrite IH by done.
  destruct (String.eqb modifier "line"); [|destruct (String.eqb _ _)];
    by rewrite ?handleConfig_frame.
Qed.

Lemma appendEvent_in_turn isEnabled line events :
  match last events with
  | Some e => enabled e = negb isEnabled
  | None => isEnabled = false
  end ->
  appendEvent isEnabled line events
  = events ++ [mkEnableDisableConfig isEnabled line].
Proof.
  unfold appendEvent. destruct (last events) as [e|] eqn:Hlast.
  - intros ->. destruct events as [|e1 events]; [done|].
    replace (Bool.eqb (negb isEnabled) isEnabled) with false
      by by destruct isEnabled.
    by rewrite andb_false_r.
  - intros ->. apply last_None in Hlast as ->. done.
Qed.

Lemma handleCommentLine_frame f rules must line st c R :
  ~ isAbout rules c R ->
  enabledDisabledRulesMap (handleCommentLine f rules must line st c) !! R
  = enabledDisabledRulesMap st !! R.
Proof.
  intros Hnot. destruct (isDirective c) eqn:Hc.
  - rewrite handleCommentLine_applyDirective by done.
    unfold applyDirective. destruct (_ && _ && _); [done|].
    cbn [enabledDisabledRulesMap]. by apply handleRules_frame.
  - by rewrite handleCommentLine_ignored.
Qed.

Lemma scan_frame f rules must R (ds : list (int * ast.Comment)) : forall st,
  (forall lc, lc ∈ ds -> ~ isAbout rules lc.2 R) ->
  enabledDisabledRulesMap
    (foldl (fun st lc => handleCommentLine f rules must lc.1 st lc.2) st ds)
  !! R
  = enabledDisabledRulesMap st !! R.
Proof.
  induction ds as [|lc ds IH]; intros st Hds; simpl; [done|].
  rewrite IH by (intros lc' Hin; apply Hds; by apply list_elem_of_further).
  apply handleCommentLine_frame, Hds, list_elem_of_here.
Qed.

Lemma scan_around f rules must R ds L c ds' action :
  isAction action -> ruleNameOk R = true ->
  directives f = ds ++ (L, c) :: ds' ->
  ast.Text c = directiveText action "" R ->
  must && String.eqb action "disable" = false ->
  (forall lc, lc ∈ ds' -> ~ isAbout rules lc.2 R) ->
  enabledDisabledRulesMap (scanComments f rules must (mkEngine ∅ [])) !! R
  = Some (appendEvent (String.eqb action "enable") L
            (eventsAfter f rules must ds R)).
Proof.
  intros Ha HR Hdir Htext Hmust Hlater.
  rewrite scanComments_directives, Hdir, foldl_app. cbn [foldl fst snd].
  rewrite scan_frame by done.
  rewrite (handleCommentLine_directive f rules must L _ c action "" R);
    [|done|by left|done..].
  cbn [enabledDisabledRulesMap]. rewrite handleRules_one. simpl String.eqb.
  cbv iota. rewrite handleConfig_insert, lookup_insert_eq. done.
Qed.


(* ===================================================================== *)
(** ** The suppression step                                               *)
(* ===================================================================== *)

(** C1, as it is stated, fails. The directives [//revive:disable:R] on
    line 3 and [//revive:enable:R] on line 5 give rule R the interval of
    the lines 3 to 5. A failure of R that runs from line 1 to line 10 has
    lines in common with that interval, and [filterFailures] keeps it:
    neither its first nor its last line lies in the interval. *)
Lemma C1_spanning_failure_is_kept :
  (disabledIntervals map_to_list
     (sampleFile [commentAt 3 "//revive:disable:R";
                  commentAt 5 "//revive:enable:R"]) [] false).1 !! "R"
  = Some [lineInterval (sampleFile []) "R" 3 5]
  /\ rangeIntersects (failureAt "R" 1 10)
       (lineInterval (sampleFile []) "R" 3 5) = true
  /\ filterFailures [failureAt "R" 1 10]
       (disabledIntervals map_to_list
          (sampleFile [commentAt 3 "//revive:disable:R";
                       commentAt 5 "//revive:enable:R"]) [] false).1
     = [failureAt "R" 1 10].
Proof. split; [|split]; vm_compute; reflexivity. Qed.

(** C1, amended. [filterFailures] drops a failure exactly when its start
    line or its end line lies in one of the intervals recorded for its rule
    name, and keeps the others in their order. In particular, take a file
    whose only directives are [//revive:disable:R], in a comment group that
    ends on line [L1], and after it [//revive:enable:R], in a group that
    ends on line [L2], and let no reason be required: then the failures
    dropped are exactly those of rule [R] whose start line or end line is
    one of [L1 .. L2]; the failures of every other rule are kept. *)
Theorem C1_suppression_by_end_lines :
  (forall failures (m : disabledIntervalsMap),
     filterFailures failures m
     = List.filter (fun failure => negb (suppressed m failure)) failures)
  /\ (forall range f rules R L1 L2 c1 c2 failures,
        validRange range -> ruleNameOk R = true ->
        directives f = [(L1, c1); (L2, c2)] ->
        ast.Text c1 = directiveText "disable" "" R ->
        ast.Text c2 = directiveText "enable" "" R ->
        filterFailures failures (disabledIntervals range f rules false).1
        = List.filter
            (fun failure =>
               negb (String.eqb (Failure.RuleName failure) R
                     && (within L1 L2 (startLine failure)
                         || within L1 L2 (endLine failure))))
            failures).
Proof.
  split; [apply filterFailures_filter|].
  intros range f rules R L1 L2 c1 c2 failures Hrange HR Hdir H1 H2.
  rewrite (disabledIntervals_two range f rules false R L1 L2 c1 c2) by done.
  cbn [fst]. rewrite filterFailures_filter.
  apply List.filter_ext. intros failure.
  rewrite suppressed_singleton. simpl existsb.
  rewrite !within_lineInterval. by rewrite orb_false_r.
Qed.

Lemma C1_suppression_by_end_lines_witness :
  filterFailures
    [failureAt "R" 4 4; failureAt "S" 4 4; failureAt "R" 2 3;
     failureAt "R" 5 8; failureAt "R" 6 6]
    (disabledIntervals map_to_list
       (sampleFile [commentAt 3 "//revive:disable:R";
                    commentAt 5 "//revive:enable:R"]) [] false).1
  = [failureAt "S" 4 4; failureAt "R" 6 6].
Proof.
  rewrite (proj2 C1_suppression_by_end_lines map_to_list _ [] "R" 3 5
             (ast.mkComment 200 "//revive:disable:R")
             (ast.mkComment 400 "//revive:enable:R")).
  - vm_compute. reflexivity.
  - apply validRange_map_to_list.
  - vm_compute. reflexivity.
  - vm_compute. reflexivity.
  - reflexivity.
  - reflexivity.
Defined.

(* ===================================================================== *)
(** ** Internal failures                                                  *)
(* ===================================================================== *)

(** C2. Let [rule] be the first rule, in the order of [rules], that is
    applied to the file and returns an internal failure, and let [failure]
    be the first internal failure it returns. Then [lint] returns an error,
    whose text is the message of [failure], and what it has sent on the
    channel is what the rules before [rule] have sent: nothing of [rule]
    itself and nothing of the rules after it. This holds whatever the
    directives of the file and the confidence of [config] are, so neither
    a disabled interval nor the confidence gate keeps [failure] from
    ending the run. *)
Theorem C2_internal_failure_aborts
    range f config pre rule post before failure after :
  (forall rule', rule' ∈ pre -> applies f config rule' = true ->
     forall x, x ∈ rawFailures f config rule' ->
               Failure.IsInternal x = false) ->
  applies f config rule = true ->
  rawFailures f config rule = before ++ failure :: after ->
  (forall x, x ∈ before -> Failure.IsInternal x = false) ->
  Failure.IsInternal failure = true ->
  let rules := pre ++ rule :: post in
  let scanned :=
    disabledIntervals range f rules (mustSpecifyDisableReason config) in
  lint range f rules config
  = ((lintRules f config scanned.1 pre scanned.2).1,
     Some (Failure.Failure failure)).
Proof.
  intros Hpre Happ Hraw Hbefore Hinternal rules scanned.
  unfold lint. fold rules. fold scanned.
  destruct scanned as [di sent]. cbn [fst snd].
  unfold rules.
  destruct (lintRules_app f config di pre (rule :: post) sent Hpre)
    as [-> _].
  rewrite lintRules_cons, Happ, Hraw.
  by rewrite normalize_inl.
Qed.

Lemma C2_internal_failure_aborts_witness :
  lint map_to_list (sampleFile [commentAt 1 "//revive:disable:broken"])
    [plainRule "first" 3; internalRule; plainRule "last" 5]
    (sampleConfig 0.5%float ∅)
  = ([failureAt "first" 3 3], Some "cannot read").
Proof.
  refine (eq_trans (C2_internal_failure_aborts map_to_list
           (sampleFile [commentAt 1 "//revive:disable:broken"])
           (sampleConfig 0.5%float ∅)
           [plainRule "first" 3] internalRule [plainRule "last" 5]
           [failureAt "broken" 2 2] internalFailure
           [failureAt "broken" 6 6] _ _ _ _ _) _).
  - intros rule' ->%list_elem_of_singleton _ x ->%list_elem_of_singleton.
    reflexivity.
  - reflexivity.
  - reflexivity.
  - intros x ->%list_elem_of_singleton. reflexivity.
  - reflexivity.
  - vm_compute. reflexivity.
Defined.

(* ===================================================================== *)
(** ** Toggle events                                                      *)
(* ===================================================================== *)

(** C3, at the input on which the code departs from it. After
    [//revive:disable:R] on line 1 the state pending for [R] is disabled.
    [handleConfig] still appends the disable of line 5: its guard
    [len(existing) > 1] leaves out the list of one event. The two disables
    pair up into the interval of the lines 1 to 5, and a failure of [R] on
    line 7 is not suppressed. *)
Lemma C3_second_disable_is_appended :
  pendingState [disableAt 1] = false
  /\ handleConfig false 5 "R" {[ "R" := [disableAt 1] ]}
     = {[ "R" := [disableAt 1; disableAt 5] ]}
  /\ enabledDisabledRulesMap
       (scanComments twoDisables [] false (mkEngine ∅ []))
     = {[ "R" := [disableAt 1; disableAt 5] ]}
  /\ (disabledIntervals map_to_list twoDisables [] false).1
     = {[ "R" := [lineInterval twoDisables "R" 1 5] ]}
  /\ filterFailures [failureAt "R" 7 7]
       (disabledIntervals map_to_list twoDisables [] false).1
     = [failureAt "R" 7 7].
Proof. repeat split; vm_compute; reflexivity. Qed.

(* ===================================================================== *)
(** ** The grammar of directives                                          *)
(* ===================================================================== *)

(** C4, as it is stated, fails. [//revive:disable:R], a tab, [reason]
    matches the grammar the claim quotes, as a whole and so also in part:
    white space, then text. [directiveRegexp] wants a blank before the
    reason and does not match, so the comment is no directive: nothing is
    recorded and a failure of [R] on its line is kept. *)
Lemma C4_tab_before_reason_is_no_directive :
  matchesWhole specDirectiveGrammar tabbedDirective = true
  /\ matchesSomewhere specDirectiveGrammar tabbedDirective = true
  /\ FindStringSubmatch directiveRegexp tabbedDirective = []
  /\ disabledIntervals map_to_list
       (sampleFile [commentAt 3 tabbedDirective]) [] false = (∅, [])
  /\ filterFailures [failureAt "R" 3 3]
       (disabledIntervals map_to_list
          (sampleFile [commentAt 3 tabbedDirective]) [] false).1
     = [failureAt "R" 3 3].
Proof. repeat split; vm_compute; reflexivity. Qed.

(** C4, amended. A comment is a directive exactly when its whole text is
    one of the texts that
    [^//[\s]*revive:(enable|disable)(?:-(line|next-line))?(?::([^\s]+))?[\s]*(?: (.+))?$]
    denotes. A comment that is none leaves the engine as it is: no event is
    recorded, no failure is sent, and there is no error to return. A
    comment that is one is handled as the directive whose action is group
    1, whose modifier is group 2, whose rule names are group 3 and whose
    reason is group 4. *)
Theorem C4_directive_when_regexp_matches f rules must line st c :
  (~ Matches directiveRegexp (ast.Text c) ->
   handleCommentLine f rules must line st c = st)
  /\ (Matches directiveRegexp (ast.Text c) ->
      handleCommentLine f rules must line st c
      = applyDirective f rules must line st c
          (index (FindStringSubmatch directiveRegexp (ast.Text c))
             directivePos)
          (index (FindStringSubmatch directiveRegexp (ast.Text c))
             modifierPos)
          (index (FindStringSubmatch directiveRegexp (ast.Text c)) rulesPos)
          (index (FindStringSubmatch directiveRegexp (ast.Text c))
             reasonPos)).
Proof.
  split.
  - intros Hno. apply handleCommentLine_ignored.
    destruct (isDirective c) eqn:Hc; [|done].
    by apply isDirective_Matches in Hc.
  - intros Hyes%isDirective_Matches.
    by apply handleCommentLine_applyDirective.
Qed.

Lemma C4_directive_when_regexp_matches_witness :
  handleCommentLine (sampleFile []) [] false 3 (mkEngine ∅ [])
    (ast.mkComment 200 "//revive:disable:R")
  = mkEngine {[ "R" := [disableAt 3] ]} []
  /\ handleCommentLine (sampleFile []) [] false 3 (mkEngine ∅ [])
       (ast.mkComment 200 tabbedDirective)
     = mkEngine ∅ [].
Proof.
  split.
  - refine (eq_trans
      (proj2 (C4_directive_when_regexp_matches (sampleFile []) [] false 3
                (mkEngine ∅ []) (ast.mkComment 200 "//revive:disable:R"))
         _) _).
    + apply isDirective_Matches. vm_compute. reflexivity.
    + vm_compute. reflexivity.
  - apply (proj1 (C4_directive_when_regexp_matches (sampleFile []) [] false
                    3 (mkEngine ∅ []) (ast.mkComment 200 tabbedDirective))).
    intros Hm%isDirective_Matches. vm_compute in Hm. discriminate.
Defined.

(* ===================================================================== *)
(** ** The policy on reasons                                              *)
(* ===================================================================== *)



(* ===================================================================== *)
(** ** The scopes of a directive                                          *)
(* ===================================================================== *)

(** C6, as it is stated, fails. The comment [//revive:disable-next-line:R]
    is on line 3, and the comment group it opens ends on line 4. The
    engine counts from the end of the group: it disables [R] on line 5. A
    failure of [R] on line 4, the line after the comment, is kept, and one
    on line 5 is dropped. *)
Lemma C6_next_line_counts_from_group_end :
  token.Line (File.ToPosition (sampleFile [nextLineThenRemark])
                (ast.Comment_Pos nextLineDirective)) = 3
  /\ token.Line (File.ToPosition (sampleFile [nextLineThenRemark])
                   (ast.Comment_End nextLineDirective)) = 3
  /\ (disabledIntervals map_to_list (sampleFile [nextLineThenRemark])
        [] false).1
     = {[ "R" := [lineInterval (sampleFile []) "R" 5 5] ]}
  /\ filterFailures [failureAt "R" 4 4; failureAt "R" 5 5]
       (disabledIntervals map_to_list (sampleFile [nextLineThenRemark])
          [] false).1
     = [failureAt "R" 4 4].
Proof. repeat split; vm_compute; reflexivity. Qed.

(** C6, amended. Let [L] be the line the engine gives a directive: the line
    on which its comment group ends, which is the line of a [//] comment
    that closes its group. Whenever the state pending for [R] is enabled
    and its events so far pair up, [disable-line] applied at line [L] adds
    to the intervals of [R] the one interval from [L] to [L],
    [disable-next-line] the one from [L+1] to [L+1], and neither changes
    the intervals of another rule. So, no reason being required, in a file
    whose only directive is [//revive:disable-line:R] the failures dropped
    are exactly those of [R] that start or end on line [L] (one of [R] on
    line [L+1] is kept); with [//revive:disable-next-line:R] they are
    exactly those of [R] that start or end on line [L+1]. *)
Theorem C6_line_scopes :
  (forall range f (m : rulesMap) R L modifier line,
     validRange range ->
     pendingState (default [] (m !! R)) = true ->
     (length (default [] (m !! R)) mod 2 = 0)%nat ->
     (modifier = "line" /\ line = L)
     \/ (modifier = "next-line" /\ line = wrapInt (L + 1)) ->
     getEnabledDisabledIntervals range f
       (handleRules modifier false L [R] m) !! R
     = Some (pairIntervals f R (default [] (m !! R))
             ++ [lineInterval f R line line])
     /\ forall name, name <> R ->
          getEnabledDisabledIntervals range f
            (handleRules modifier false L [R] m) !! name
          = getEnabledDisabledIntervals range f m !! name)
  /\ (forall range f rules R L c failures,
        validRange range -> ruleNameOk R = true ->
        directives f = [(L, c)] ->
        (ast.Text c = directiveText "disable" "line" R ->
         (disabledIntervals range f rules false).1
         = {[R := [lineInterval f R L L]]}
         /\ filterFailures failures (disabledIntervals range f rules false).1
            = List.filter
                (fun failure =>
                   negb (String.eqb (Failure.RuleName failure) R
                         && ((startLine failure =? L)
                             || (endLine failure =? L))))
                failures)
        /\ (ast.Text c = directiveText "disable" "next-line" R ->
            - 2 ^ 63 <= L < 2 ^ 63 - 1 ->
            (disabledIntervals range f rules false).1
            = {[R := [lineInterval f R (L + 1) (L + 1)]]}
            /\ filterFailures failures
                 (disabledIntervals range f rules false).1
               = List.filter
                   (fun failure =>
                      negb (String.eqb (Failure.RuleName failure) R
                            && ((startLine failure =? L + 1)
                                || (endLine failure =? L + 1))))
                   failures)).
Proof.
  split.
  - intros range f m R L modifier line Hrange Hpending Hlen Hmod.
    assert (handleRules modifier false L [R] m
            = <[R := default [] (m !! R) ++ [disableAt line; enableAt line]]>
                m) as ->.
    { destruct Hmod as [[-> ->]|[-> ->]].
      - by apply handleRules_line_pending.
      - by apply handleRules_next_line_pending. }
    split.
    + rewrite getEnabledDisabledIntervals_lookup, lookup_insert_eq by done.
      simpl. by rewrite pairIntervals_toggle_pair.
    + intros name Hname.
      rewrite !getEnabledDisabledIntervals_lookup by done.
      by rewrite lookup_insert_ne.
  - intros range f rules R L c failures Hrange HR Hdir. split.
    + intros Htext.
      rewrite (disabledIntervals_one range f rules false L c "disable"
                 "line" R) by solve_side.
      change (String.eqb "disable" "enable") with false. cbn [fst].
      rewrite handleRules_disable_line.
      rewrite getEnabledDisabledIntervals_singleton by done.
      split; [done|]. rewrite filterFailures_singleton.
      apply List.filter_ext. intros failure. simpl existsb.
      by rewrite !within_lineInterval, !within_same, orb_false_r.
    + intros Htext HL.
      rewrite (disabledIntervals_one range f rules false L c "disable"
                 "next-line" R) by solve_side.
      change (String.eqb "disable" "enable") with false. cbn [fst].
      rewrite handleRules_disable_next_line.
      rewrite getEnabledDisabledIntervals_singleton by done.
      rewrite wrapInt_small by (clear -HL; lia).
      split; [done|]. rewrite filterFailures_singleton.
      apply List.filter_ext. intros failure. simpl existsb.
      by rewrite !within_lineInterval, !within_same, orb_false_r.
Qed.

Lemma C6_line_scopes_witness :
  filterFailures [failureAt "R" 3 3; failureAt "R" 4 4; failureAt "S" 3 3]
    (disabledIntervals map_to_list
       (sampleFile [commentAt 3 "//revive:disable-line:R"]) [] false).1
  = [failureAt "R" 4 4; failureAt "S" 3 3]
  /\ filterFailures
       [failureAt "R" 3 3; failureAt "R" 4 4; failureAt "R" 5 5]
       (disabledIntervals map_to_list
          (sampleFile [commentAt 3 "//revive:disable-next-line:R"])
          [] false).1
     = [failureAt "R" 3 3; failureAt "R" 5 5].
Proof.
  split.
  - refine (eq_trans
      (proj2 (proj1 (proj2 C6_line_scopes map_to_list
         (sampleFile [commentAt 3 "//revive:disable-line:R"]) [] "R" 3
         (ast.mkComment 200 "//revive:disable-line:R") _ _ _ _) _)) _).
    + apply validRange_map_to_list.
    + reflexivity.
    + vm_compute. reflexivity.
    + reflexivity.
    + vm_compute. reflexivity.
  - refine (eq_trans
      (proj2 (proj2 (proj2 C6_line_scopes map_to_list
         (sampleFile [commentAt 3 "//revive:disable-next-line:R"]) [] "R" 3
         (ast.mkComment 200 "//revive:disable-next-line:R") _ _ _ _) _ _))
      _).
    + apply validRange_map_to_list.
    + reflexivity.
    + vm_compute. reflexivity.
    + reflexivity.
    + lia.
    + vm_compute. reflexivity.
Defined.

(** C7, as it is stated, fails. The comment [//revive:disable:R] is on
    line 3, and the comment group it opens ends on line 4. [R] is disabled
    from the end of the group on: a failure of [R] on line 3, the line of
    the directive, is kept. *)
Lemma C7_suppression_starts_at_group_end :
  token.Line (File.ToPosition (sampleFile [disableThenRemark])
                (ast.Comment_Pos disableDirective)) = 3
  /\ token.Line (File.ToPosition (sampleFile [disableThenRemark])
                   (ast.Comment_End disableDirective)) = 3
  /\ (disabledIntervals map_to_list (sampleFile [disableThenRemark])
        [] false).1
     = {[ "R" := [lineInterval (sampleFile []) "R" 4 MaxInt32] ]}
  /\ filterFailures [failureAt "R" 3 3; failureAt "R" 4 4]
       (disabledIntervals map_to_list (sampleFile [disableThenRemark])
          [] false).1
     = [failureAt "R" 3 3].
Proof. repeat split; vm_compute; reflexivity. Qed.

(** C7, amended. When the events of a rule [R] end in an event [e] that has
    no partner, [getEnabledDisabledIntervals] closes the intervals of [R]
    with the one from the line of [e] to [MaxInt32], and every failure of
    [R] that starts or ends on a line from there on is dropped. And that is
    what [//revive:disable:R] leaves, in any file, when no reason is
    required, the events that [R] has before the directive end enabled,
    or are none, and pair up, and no directive after it is about [R]:
    with [L] the line on which the comment group of the directive ends,
    the intervals of [R] are then those of the events before it and the
    one from [L] to [MaxInt32], and [filterFailures] drops every failure
    of [R] that starts or ends on one of the lines [L .. MaxInt32]; of the
    other failures of [R] it keeps those that neither start nor end in an
    interval of the events before. *)
Theorem C7_unterminated_disable :
  (forall range f (m : rulesMap) R events e failure,
     validRange range ->
     m !! R = Some (events ++ [e]) -> (length events mod 2 = 0)%nat ->
     getEnabledDisabledIntervals range f m !! R
     = Some (pairIntervals f R events
             ++ [lineInterval f R (position e) MaxInt32])
     /\ (Failure.RuleName failure = R ->
         within (position e) MaxInt32 (startLine failure)
         || within (position e) MaxInt32 (endLine failure) = true ->
         filterFailures [failure] (getEnabledDisabledIntervals range f m)
         = []))
  /\ (forall range f rules R ds L c ds',
        validRange range -> ruleNameOk R = true ->
        directives f = ds ++ (L, c) :: ds' ->
        ast.Text c = directiveText "disable" "" R ->
        pendingState (eventsAfter f rules false ds R) = true ->
        (length (eventsAfter f rules false ds R) mod 2 = 0)%nat ->
        (forall lc, lc ∈ ds' -> ~ isAbout rules lc.2 R) ->
        (disabledIntervals range f rules false).1 !! R
        = Some (pairIntervals f R (eventsAfter f rules false ds R)
                ++ [lineInterval f R L MaxInt32])
        /\ (forall failures x,
              x ∈ failures -> Failure.RuleName x = R ->
              within L MaxInt32 (startLine x)
              || within L MaxInt32 (endLine x) = true ->
              x ∉ filterFailures failures
                    (disabledIntervals range f rules false).1)
        /\ (forall failures x,
              x ∈ failures -> Failure.RuleName x = R ->
              within L MaxInt32 (startLine x)
              || within L MaxInt32 (endLine x) = false ->
              existsb (fun d => lineInInterval (startLine x) d
                                || lineInInterval (endLine x) d)
                (pairIntervals f R (eventsAfter f rules false ds R))
              = false ->
              x ∈ filterFailures failures
                    (disabledIntervals range f rules false).1)).
Proof.
  split.
  - intros range f m R events e failure Hrange Hm Hlen.
    assert (getEnabledDisabledIntervals range f m !! R
            = Some (pairIntervals f R events
                    ++ [lineInterval f R (position e) MaxInt32])) as Hdi.
    { rewrite getEnabledDisabledIntervals_lookup, Hm by done. simpl.
      by rewrite pairIntervals_app_even. }
    split; [done|]. intros Hname Hline.
    rewrite filterFailures_filter. simpl. unfold suppressed.
    rewrite Hname, Hdi. rewrite existsb_app_last; [done|].
    by rewrite !within_lineInterval.
  - intros range f rules R ds L c ds' Hrange HR Hdir Htext Hpend Hlen Hlater.
    assert ((disabledIntervals range f rules false).1 !! R
            = Some (pairIntervals f R (eventsAfter f rules false ds R)
                    ++ [lineInterval f R L MaxInt32])) as Hdi.
    { unfold disabledIntervals. cbn [fst].
      rewrite getEnabledDisabledIntervals_lookup by done.
      rewrite (scan_around f rules false R ds L c ds' "disable");
        [|by right|done..].
      change (String.eqb "disable" "enable") with false.
      cbn [fmap option_fmap option_map].
      rewrite appendEvent_in_turn.
      - by rewrite pairIntervals_app_even.
      - unfold pendingState in Hpend.
        by destruct (last (eventsAfter f rules false ds R)). }
    split; [done|]. split.
    + intros failures x Hx Hname Hline.
      rewrite filterFailures_filter, list_elem_of_In, List.filter_In.
      intros [_ Hsup]. apply negb_true_iff in Hsup.
      unfold suppressed in Hsup. rewrite Hname, Hdi in Hsup.
      rewrite existsb_app_last in Hsup; [done|].
      by rewrite !within_lineInterval.
    + intros failures x Hx Hname Hline Hbefore.
      rewrite filterFailures_filter, list_elem_of_In, List.filter_In.
      split; [by apply list_elem_of_In|]. apply negb_true_iff.
      unfold suppressed. rewrite Hname, Hdi, existsb_app, Hbefore.
      simpl. by rewrite !within_lineInterval, Hline.
Qed.

Lemma C7_unterminated_disable_witness :
  (disabledIntervals map_to_list reopened [] false).1 !! "R"
  = Some [lineInterval reopened "R" 1 3;
          lineInterval reopened "R" 7 MaxInt32].
Proof.
  refine (eq_trans
    (proj1 (proj2 C7_unterminated_disable map_to_list reopened [] "R"
              [(1, ast.mkComment 0 "//revive:disable:R");
               (3, ast.mkComment 200 "//revive:enable:R")]
              7 (ast.mkComment 600 "//revive:disable:R")
              [(9, ast.mkComment 800 "//revive:disable:S")]
              _ _ _ _ _ _ _)) _).
  - apply validRange_map_to_list.
  - reflexivity.
  - vm_compute. reflexivity.
  - reflexivity.
  - vm_compute. reflexivity.
  - vm_compute. reflexivity.
  - intros lc ->%list_elem_of_singleton H. unfold isAbout in H.
    vm_compute in H. apply list_elem_of_singleton in H. discriminate.
  - vm_compute. reflexivity.
Defined.

(* ===================================================================== *)
(** ** Normalization                                                      *)
(* ===================================================================== *)

(** C8, as it is stated, fails. A failure that comes with the position of
    line 7 and with a node of line 3 leaves the first loop of [lint] with
    the position of the node: the position it had is not kept. *)
Lemma C8_position_is_overwritten :
  normalize (sampleFile []) (plainRule "rule" 1)
    [Failure.mk "found" "" (mkFailurePosition (samplePosition 7)
                              (samplePosition 7))
       (Some (ast.TreeNode 200 250)) 1%float false]
  = inr [Failure.mk "found" "rule"
           (mkFailurePosition (token.mkPosition "a.go" 200 3 1)
              (token.mkPosition "a.go" 250 3 51))
           (Some (ast.TreeNode 200 250)) 1%float false]
  /\ token.Line (samplePosition 7) = 7.
Proof. split; vm_compute; reflexivity. Qed.

(** C8, amended. When no failure of a rule is internal, the first loop of
    [lint] yields as many failures, in the same order, and for each of
    them: the rule name is that of the current rule when the raw name is
    empty and the raw name otherwise; the position is resolved from the
    node whenever the failure has a node, whatever position it came with,
    and is the raw position when it has none; nothing else changes. *)
Theorem C8_normalization f rule failures :
  (forall x, x ∈ failures -> Failure.IsInternal x = false) ->
  exists failures',
    normalize f rule failures = inr failures'
    /\ length failures' = length failures
    /\ forall i raw, failures !! i = Some raw ->
         exists failure, failures' !! i = Some failure
         /\ (Failure.RuleName raw = ""
             -> Failure.RuleName failure = Rule.Name rule)
         /\ (Failure.RuleName raw <> ""
             -> Failure.RuleName failure = Failure.RuleName raw)
         /\ (forall node, Failure.Node raw = Some node ->
               Failure.Position failure
               = ToFailurePosition (ast.Node_Pos node) (ast.Node_End node) f)
         /\ (Failure.Node raw = None ->
             Failure.Position failure = Failure.Position raw)
         /\ Failure.Failure failure = Failure.Failure raw
         /\ Failure.Node failure = Failure.Node raw
         /\ Failure.Confidence failure = Failure.Confidence raw
         /\ Failure.Internal failure = Failure.Internal raw.
Proof.
  intros Hall. exists (map (normalized f rule) failures).
  split; [by apply normalize_inr|]. split; [by rewrite length_map|].
  intros i raw Hraw. exists (normalized f rule raw).
  split; [by rewrite list_lookup_fmap, Hraw|].
  unfold normalized. simpl. repeat split.
  - by intros ->.
  - by intros ->%String.eqb_neq.
  - by intros node ->.
  - by intros ->.
Qed.

Lemma C8_normalization_witness :
  exists failures',
    normalize (sampleFile []) (plainRule "rule" 1)
      [failureAt "" 7 7; failureAt "other" 8 8] = inr failures'
    /\ Failure.RuleName <$> failures' = ["rule"; "other"]
    /\ Failure.Position <$> failures'
       = Failure.Position <$> [failureAt "" 7 7; failureAt "other" 8 8].
Proof.
  destruct (C8_normalization (sampleFile []) (plainRule "rule" 1)
              [failureAt "" 7 7; failureAt "other" 8 8])
    as (failures' & Heq & _ & _).
  - intros x Hx. repeat (apply elem_of_cons in Hx as [->|Hx]; [done|]).
    by apply elem_of_nil in Hx.
  - exists failures'. split; [exact Heq|].
    vm_compute in Heq. injection Heq as <-. split; reflexivity.
Defined.

(* ===================================================================== *)
(** ** Determinism                                                        *)
(* ===================================================================== *)

(** C9. [lint] is a function of the file, the rules and the configuration
    but for one thing: the order in which [range] visits
    [enabledDisabledRulesMap]. Whatever that order is on either run, the
    two runs build the same disabled intervals and send the same failures
    in the same order, with the same error. *)
Theorem C9_deterministic range1 range2 f rules config :
  validRange range1 -> validRange range2 ->
  (forall must, disabledIntervals range1 f rules must
                = disabledIntervals range2 f rules must)
  /\ lint range1 f rules config = lint range2 f rules config.
Proof.
  intros H1 H2.
  assert (forall must, disabledIntervals range1 f rules must
                       = disabledIntervals range2 f rules must) as Hdi.
  { intros must. unfold disabledIntervals.
    by rewrite !getEnabledDisabledIntervals_fmap. }
  split; [done|]. unfold lint. by rewrite Hdi.
Qed.

Lemma C9_deterministic_witness :
  lint map_to_list
    (sampleFile [commentAt 1 "//revive:disable:a";
                 commentAt 2 "//revive:disable:b"])
    [plainRule "a" 3; plainRule "b" 4; plainRule "c" 5]
    (sampleConfig 0.5%float ∅)
  = lint reverseRange
      (sampleFile [commentAt 1 "//revive:disable:a";
                   commentAt 2 "//revive:disable:b"])
      [plainRule "a" 3; plainRule "b" 4; plainRule "c" 5]
      (sampleConfig 0.5%float ∅).
Proof.
  apply (C9_deterministic map_to_list reverseRange).
  - apply validRange_map_to_list.
  - apply validRange_reverse.
Defined.

(* ===================================================================== *)
(** ** A rule with an empty list of intervals                             *)
(* ===================================================================== *)




(* ===================================================================== *)
(** ** Further properties of the pipeline and of the engine               *)
(* ===================================================================== *)

(** X1. [lint] returns an error exactly when one of the rules it would apply
    to the file returns an internal failure. *)
Theorem X_lint_error_iff range f rules config :
  (lint range f rules config).2 <> None
  <-> exists rule, rule ∈ rules /\ applies f config rule = true
        /\ exists x, x ∈ rawFailures f config rule
                     /\ Failure.IsInternal x = true.
Proof.
  unfold lint. destruct (disabledIntervals _ _ _ _) as [di sent].
  apply lintRules_error_iff.
Qed.

(** X2. When no rule returns an internal failure, [lint] returns no error and
    what it has sent is: the failures of [disabledIntervals]; then, rule by
    rule in the order of [rules] and leaving out the rules that exclude the
    file, the failures of the rule in the order it gave them, normalized,
    without those that are suppressed and without those of a confidence
    below that of [config]. *)
Theorem X_pipeline_order range f rules config :
  (forall rule, rule ∈ rules -> applies f config rule = true ->
     forall x, x ∈ rawFailures f config rule ->
               Failure.IsInternal x = false) ->
  let scanned :=
    disabledIntervals range f rules (mustSpecifyDisableReason config) in
  lint range f rules config
  = (scanned.2
     ++ flat_map
          (fun rule =>
             if applies f config rule
             then List.filter
                    (fun failure =>
                       float64_ge (Failure.Confidence failure)
                         (Config.Confidence config))
                    (List.filter
                       (fun failure => negb (suppressed scanned.1 failure))
                       (map (normalized f rule)
                          (rawFailures f config rule)))
             else []) rules,
     None).
Proof.
  intros Hrules scanned. unfold lint. fold scanned.
  destruct scanned as [di sent]. cbn [fst snd].
  rewrite lintRules_sent by done. f_equal. f_equal.
  apply flat_map_ext. intros rule.
  destruct (applies f config rule); [|done].
  unfold confidenceGate. by rewrite filterFailures_filter.
Qed.

Lemma X_pipeline_order_witness :
  lint map_to_list (sampleFile [commentAt 7 "//revive:disable-line:graded"])
    [plainRule "first" 3; gradedRule]
    (sampleConfig 0.5%float ∅)
  = ([failureAt "first" 3 3;
      Failure.mk "sure" "graded" (mkFailurePosition (samplePosition 2)
                                    (samplePosition 2)) None 0.75%float false],
     None).
Proof.
  refine (eq_trans (X_pipeline_order map_to_list
    (sampleFile [commentAt 7 "//revive:disable-line:graded"])
    [plainRule "first" 3; gradedRule] (sampleConfig 0.5%float ∅) _) _).
  - intros rule Hin _ x Hx.
    repeat (apply elem_of_cons in Hin as [->|Hin];
            [repeat (apply elem_of_cons in Hx as [->|Hx]; [done|]);
             by apply elem_of_nil in Hx|]).
    by apply elem_of_nil in Hin.
  - vm_compute. reflexivity.
Defined.

(** X3, what holds of C3. In every state that the scan of a file reaches, an
    enable for a rule whose pending state is enabled is not appended, and
    a disable for a rule whose pending state is disabled is not appended
    unless the rule has exactly one event. *)
Theorem X_dedup_of_toggle_events f rules must line name :
  let m := enabledDisabledRulesMap
             (scanComments f rules must (mkEngine ∅ [])) in
  (pendingState (default [] (m !! name)) = true ->
   default [] (handleConfig true line name m !! name)
   = default [] (m !! name))
  /\ (pendingState (default [] (m !! name)) = false ->
      length (default [] (m !! name)) <> 1%nat ->
      default [] (handleConfig false line name m !! name)
      = default [] (m !! name)).
Proof.
  intros m. rewrite !handleConfig_insert, !lookup_insert_eq. simpl.
  split.
  - intros Hpending. apply appendEvent_enable_pending; [|done].
    destruct (m !! name) as [events|] eqn:Hm; [|done].
    by apply (scanComments_wellStarted f rules must name).
  - intros Hpending Hlen. by apply appendEvent_disable_pending.
Qed.

Lemma X_dedup_of_toggle_events_witness :
  default []
    (handleConfig true 9 "R"
       (enabledDisabledRulesMap
          (scanComments
             (sampleFile [commentAt 1 "//revive:disable:R";
                          commentAt 5 "//revive:enable:R"])
             [] false (mkEngine ∅ [])))
     !! "R")
  = [disableAt 1; enableAt 5].
Proof.
  refine (eq_trans
    (proj1 (X_dedup_of_toggle_events
       (sampleFile [commentAt 1 "//revive:disable:R";
                    commentAt 5 "//revive:enable:R"])
       [] false 9 "R") _) _).
  - vm_compute. reflexivity.
  - vm_compute. reflexivity.
Defined.

(** X4. A directive without colon, rule names and reason is about every
    rule of [rules], in their order; but under the policy on reasons a
    disable of that form is not applied: it only sends the failure for the
    missing reason. *)
Theorem X_unnamed_directive f rules must line st c action modifier :
  isAction action -> isModifier modifier ->
  ast.Text c = "//revive:" +:+ action +:+ dashed modifier ->
  handleCommentLine f rules must line st c
  = if must && String.eqb action "disable"
    then mkEngine (enabledDisabledRulesMap st)
           (failures st ++ [missingReason f c])
    else mkEngine
           (handleRules modifier (String.eqb action "enable") line
              (map Rule.Name rules) (enabledDisabledRulesMap st))
           (failures st).
Proof.
  intros Ha Hm Htext. unfold handleCommentLine.
  rewrite Htext, FindStringSubmatch_unnamed by done.
  unfold index. simpl nth. simpl (length _ =? 0)%nat. cbv iota.
  change (String.eqb (strings.Trim "" " ") "") with true.
  rewrite andb_true_r. destruct (must && _); [done|].
  simpl. by rewrite foldl_rule_names.
Qed.

Lemma X_unnamed_directive_witness :
  (disabledIntervals map_to_list
     (sampleFile [commentAt 3 "//revive:disable-line"])
     [plainRule "a" 1; plainRule "b" 2] false).1
  = {[ "a" := [lineInterval (sampleFile []) "a" 3 3];
       "b" := [lineInterval (sampleFile []) "b" 3 3] ]}
  /\ (disabledIntervals map_to_list
        (sampleFile [commentAt 3 "//revive:disable-line"])
        [plainRule "a" 1; plainRule "b" 2] true)
     = (∅, [missingReason (sampleFile [])
              (ast.mkComment 200 "//revive:disable-line")]).
Proof.
  split.
  - unfold disabledIntervals, scanComments, handleComment. simpl foldl.
    rewrite (X_unnamed_directive _ _ false _ _ _ "disable" "line");
      [|by right|right; by left|reflexivity].
    vm_compute. reflexivity.
  - unfold disabledIntervals, scanComments, handleComment. simpl foldl.
    rewrite (X_unnamed_directive _ _ true _ _ _ "disable" "line");
      [|by right|right; by left|reflexivity].
    vm_compute. reflexivity.
Defined.

(* ===================================================================== *)
(** ** Facts for the further properties                                   *)
(* ===================================================================== *)

Lemma filter_sublist {A} (p : A -> bool) l : sublist (List.filter p l) l.
Proof.
  induction l as [|x l IH]; simpl; [constructor|].
  destruct (p x); by constructor.
Qed.

Lemma filter_idempotent {A} (p : A -> bool) l :
  List.filter p (List.filter p l) = List.filter p l.
Proof.
  induction l as [|x l IH]; simpl; [done|].
  destruct (p x) eqn:Hx; simpl; [|done]. by rewrite Hx, IH.
Qed.

Lemma validRange_empty range : validRange range -> range ∅ = [].
Proof.
  intros H. specialize (H ∅). rewrite map_to_list_empty in H.
  by apply Permutation_nil_r in H.
Qed.

Lemma directives_nil f :
  (forall g c, g ∈ ast.Comments (File.AST f) -> c ∈ ast.List g ->
               isDirective c = false) ->
  directives f = [].
Proof.
  unfold directives. induction (ast.Comments (File.AST f)) as [|g gs IH];
    intros H; simpl; [done|].
  rewrite IH by (intros g' c Hg; apply H; by apply list_elem_of_further).
  rewrite app_nil_r.
  assert (forall c, c ∈ ast.List g -> isDirective c = false) as Hg.
  { intros c. apply H. apply list_elem_of_here. }
  induction (ast.List g) as [|c cs IHc]; simpl; [done|].
  rewrite Hg by apply list_elem_of_here. apply IHc.
  intros c' Hc'. apply Hg. by apply list_elem_of_further.
Qed.

Lemma directives_are_directives f lc :
  lc ∈ directives f -> isDirective lc.2 = true.
Proof.
  destruct lc as [l c]. unfold directives.
  rewrite list_elem_of_In, in_flat_map. intros (g & _ & Hin).
  apply in_map_iff in Hin as (c' & [= _ <-] & Hc).
  by apply List.filter_In in Hc as [_ Hc].
Qed.

(** The policy on reasons, comment by comment and over a scan. *)
Lemma handleCommentLine_policy f rules line st c :
  isDirective c = true ->
  handleCommentLine f rules true line st c
  = if lacksReason c
    then mkEngine (enabledDisabledRulesMap st)
           (failures st ++ [missingReason f c])
    else handleCommentLine f rules false line st c.
Proof.
  intros Hc. rewrite !handleCommentLine_applyDirective by done.
  unfold applyDirective, lacksReason. simpl. by destruct (_ && _).
Qed.

Lemma handleCommentLine_no_policy f rules line st c :
  failures (handleCommentLine f rules false line st c) = failures st.
Proof.
  destruct (isDirective c) eqn:Hc.
  - by rewrite handleCommentLine_applyDirective.
  - by rewrite handleCommentLine_ignored.
Qed.

Lemma handleCommentLine_map f f' rules must line st st' c c' :
  ast.Text c = ast.Text c' ->
  enabledDisabledRulesMap st = enabledDisabledRulesMap st' ->
  enabledDisabledRulesMap (handleCommentLine f rules must line st c)
  = enabledDisabledRulesMap (handleCommentLine f' rules must line st' c').
Proof.
  intros Htext Hst. unfold handleCommentLine. rewrite Htext.
  destruct (length _ =? 0)%nat; [done|].
  destruct (_ && _ && _) || destruct (_ && _); simpl; by rewrite ?Hst.
Qed.

Lemma scan_map f rules must ds : forall st st',
  enabledDisabledRulesMap st = enabledDisabledRulesMap st' ->
  enabledDisabledRulesMap
    (foldl (fun st lc => handleCommentLine f rules must lc.1 st lc.2) st ds)
  = enabledDisabledRulesMap
      (foldl (fun st lc => handleCommentLine f rules must lc.1 st lc.2) st' ds).
Proof.
  induction ds as [|lc ds IH]; intros st st' Hst; simpl; [done|].
  apply IH. by apply handleCommentLine_map.
Qed.

Lemma scan_policy f rules (ds : list (int * ast.Comment)) : forall st,
  (forall lc, lc ∈ ds -> isDirective lc.2 = true) ->
  foldl (fun st lc => handleCommentLine f rules true lc.1 st lc.2) st ds
  = mkEngine
      (enabledDisabledRulesMap
         (foldl (fun st lc => handleCommentLine f rules false lc.1 st lc.2)
            st (List.filter (fun lc => negb (lacksReason lc.2)) ds)))
      (failures st
       ++ map (fun lc => missingReason f lc.2)
            (List.filter (fun lc => lacksReason lc.2) ds)).
Proof.
  induction ds as [|lc ds IH]; intros st Hds; simpl.
  - rewrite app_nil_r. by destruct st.
  - rewrite IH by (intros lc' Hin; apply Hds; by apply list_elem_of_further).
    rewrite handleCommentLine_policy by (apply Hds; apply list_elem_of_here).
    destruct (lacksReason lc.2); simpl.
    + rewrite <- app_assoc. f_equal. by apply scan_map.
    + by rewrite handleCommentLine_no_policy.
Qed.

Lemma scan_no_policy f rules (ds : list (int * ast.Comment)) : forall st,
  failures
    (foldl (fun st lc => handleCommentLine f rules false lc.1 st lc.2) st ds)
  = failures st.
Proof.
  induction ds as [|lc ds IH]; intros st; simpl; [done|].
  by rewrite IH, handleCommentLine_no_policy.
Qed.

Lemma handleCommentLine_failures f rules must line st c x :
  x ∈ failures (handleCommentLine f rules must line st c) ->
  x ∈ failures st \/ (must = true /\ x = missingReason f c).
Proof.
  destruct (isDirective c) eqn:Hc.
  - rewrite handleCommentLine_applyDirective by done. unfold applyDirective.
    destruct must; [|by left]. simpl andb.
    destruct (_ && _); [|by left]. simpl.
    intros [Hx| ->%list_elem_of_singleton]%elem_of_app; [by left|by right].
  - rewrite handleCommentLine_ignored by done. by left.
Qed.

Lemma scan_failures f rules must ds : forall st x,
  x ∈ failures
        (foldl (fun st lc => handleCommentLine f rules must lc.1 st lc.2)
           st ds) ->
  x ∈ failures st
  \/ (must = true /\ exists lc, lc ∈ ds /\ x = missingReason f lc.2).
Proof.
  induction ds as [|lc ds IH]; intros st x; simpl; [by left|].
  intros [Hx | (Hm & lc' & Hin & ->)]%IH.
  - apply handleCommentLine_failures in Hx as [Hx | [Hm ->]]; [by left|].
    right. split; [done|]. exists lc. split; [apply list_elem_of_here|done].
  - right. split; [done|]. exists lc'.
    split; [by apply list_elem_of_further|done].
Qed.

(** What [lint] sends for the rules. *)
Lemma normalize_inr_inv f rule failures kept :
  normalize f rule failures = inr kept ->
  kept = map (normalized f rule) failures
  /\ forall x, x ∈ failures -> Failure.IsInternal x = false.
Proof.
  revert kept. induction failures as [|fl failures IH]; intros kept; simpl.
  - intros [= <-]. split; [done|]. by intros x Hx%elem_of_nil.
  - destruct (Failure.IsInternal fl) eqn:Hfl; [done|].
    destruct (normalize f rule failures) as [err|rest]; [done|].
    intros [= <-]. destruct (IH rest) as [-> Hall]; [done|]. split.
    + cbn [map]. f_equal. unfold normalized.
      destruct fl as [msg name pos node conf internal]. simpl.
      destruct (String.eqb name ""), node; done.
    + intros x [->|Hx]%elem_of_cons; [done|by apply Hall].
Qed.

Lemma lintRules_sound f config di rules : forall sent x,
  x ∈ (lintRules f config di rules sent).1 ->
  x ∈ sent \/ fromRule f config di rules x.
Proof.
  induction rules as [|rule rules IH]; intros sent x.
  - simpl. by left.
  - rewrite lintRules_cons. destruct (applies f config rule) eqn:Happ.
    + destruct (normalize f rule (rawFailures f config rule)) as [err|kept]
        eqn:Hnorm; [by left|].
      apply normalize_inr_inv in Hnorm as [-> Hraw].
      intros [Hx | (r & raw & Hr & H)]%IH.
      * apply elem_of_app in Hx as [Hx|Hx]; [by left|]. right.
        unfold confidenceGate in Hx.
        apply list_elem_of_In, List.filter_In in Hx as [Hx Hgate].
        rewrite filterFailures_filter in Hx.
        apply List.filter_In in Hx as [Hx Hsup].
        apply in_map_iff in Hx as (raw & <- & Hin).
        apply list_elem_of_In in Hin.
        exists rule, raw. split; [apply list_elem_of_here|].
        split; [done|]. split; [done|]. split; [by apply Hraw|].
        split; [done|]. split; [by apply negb_true_iff|done].
      * right. exists r, raw. split; [by apply list_elem_of_further|done].
    + intros [Hx | (r & raw & Hr & H)]%IH; [by left|].
      right. exists r, raw. split; [by apply list_elem_of_further|done].
Qed.

(** The matcher and the submatches. *)
Lemma star_Some {A} class s (k : string -> option A) m :
  star class s k = Some m ->
  exists s1 s2, s = s1 +:+ s2 /\ allBytes class s1 = true /\ k s2 = Some m.
Proof.
  induction s as [|c s IH]; simpl.
  - intros H. by exists EmptyString, EmptyString.
  - destruct (class c) eqn:Hc.
    + destruct (star class s k) eqn:Hs.
      * intros [= <-]. destruct IH as (s1 & s2 & -> & H1 & H2); [done|].
        exists (String c s1), s2. simpl. by rewrite Hc.
      * intros H. by exists EmptyString, (String c s).
    + intros H. by exists EmptyString, (String c s).
Qed.

Lemma run_MatchesCaps r : forall s caps k m,
  run r s caps k = Some m ->
  exists s1 s2 caps',
    s = s1 +:+ s2 /\ MatchesCaps r s1 caps caps' /\ k s2 caps' = Some m.
Proof.
  induction r as [text|class|class|r1 IH1 r2 IH2|r1 IH1 r2 IH2|r IH|i r IH];
    intros s caps k m.
  - simpl. destruct (stripPrefix text s) as [rest|] eqn:Hs; [|done].
    apply stripPrefix_Some in Hs as ->. intros H.
    exists text, rest, caps. split; [done|]. split; [constructor|done].
  - simpl. intros (s1 & s2 & -> & H1 & H2)%star_Some.
    exists s1, s2, caps. split; [done|]. split; [by constructor|done].
  - simpl. destruct s as [|c s]; [done|].
    destruct (class c) eqn:Hc; [|done].
    intros (s1 & s2 & -> & H1 & H2)%star_Some.
    exists (String c s1), s2, caps. split; [done|]. split; [|done].
    constructor; [done|]. simpl. by rewrite Hc.
  - rewrite run_Seq. intros (s1 & s2 & caps1 & -> & Hm1 & H)%IH1.
    apply IH2 in H as (s3 & s4 & caps2 & -> & Hm2 & H).
    exists (s1 +:+ s3), s4, caps2. rewrite append_assoc.
    split; [done|]. split; [by econstructor|done].
  - simpl. destruct (run r1 s caps k) eqn:H1.
    + intros [= <-]. apply IH1 in H1 as (s1 & s2 & caps' & -> & Hm & H).
      exists s1, s2, caps'. split; [done|]. split; [by constructor|done].
    + intros (s1 & s2 & caps' & -> & Hm & H)%IH2.
      exists s1, s2, caps'. split; [done|].
      split; [by apply MatchesCaps_Alt_r|done].
  - simpl. destruct (run r s caps k) eqn:H1.
    + intros [= <-]. apply IH in H1 as (s1 & s2 & caps' & -> & Hm & H).
      exists s1, s2, caps'. split; [done|]. split; [by constructor|done].
    + intros H. exists EmptyString, s, caps. split; [done|].
      split; [constructor|done].
  - rewrite run_Cap. intros (s1 & s2 & caps' & -> & Hm & H)%IH.
    rewrite consumed_append in H.
    exists s1, s2, (<[i := s1]> caps'). split; [done|].
    split; [by constructor|done].
Qed.

Lemma String_eqb_nonempty s : s <> EmptyString -> String.eqb s "" = false.
Proof. by intros H%String.eqb_neq. Qed.

(** Rule lists. *)
Lemma Split_append_sep (x rest : string) sep :
  allBytes (fun c => negb (Ascii.eqb c sep)) x = true ->
  strings.Split (x +:+ String sep rest) sep = x :: strings.Split rest sep.
Proof.
  induction x as [|c x IH]; intros Hx.
  - change (EmptyString +:+ String sep rest) with (String sep rest).
    simpl. by rewrite Ascii.eqb_refl.
  - change (String c x +:+ String sep rest)
      with (String c (x +:+ String sep rest)).
    simpl in Hx. apply andb_prop in Hx as [Hc Hx].
    cbn [strings.Split]. apply negb_true_iff in Hc as ->. by rewrite IH.
Qed.

Lemma Split_join items :
  items <> [] ->
  Forall (fun n => allBytes (fun c => negb (Ascii.eqb c ","%char)) n = true)
    items ->
  strings.Split (join items) ","%char = items.
Proof.
  induction items as [|x items IH]; [done|]. intros _ Hall.
  apply Forall_cons in Hall as [Hx Hall].
  destruct items as [|y items].
  - simpl. by apply Split_no_sep.
  - change (join (x :: y :: items))
      with (x +:+ String ","%char (join (y :: items))).
    rewrite Split_append_sep by done. by rewrite IH.
Qed.

Lemma collectRuleNames_filter items :
  Forall (fun n => allBytes notSpace n = true) items ->
  collectRuleNames items = List.filter named items.
Proof.
  unfold collectRuleNames.
  cut (forall acc,
         Forall (fun n => allBytes notSpace n = true) items ->
         foldl (fun ruleNames name =>
                  let name := strings.Trim name LF in
                  if negb (String.eqb name "") then ruleNames ++ [name]
                  else ruleNames) acc items
         = acc ++ List.filter named items).
  { intros H. apply (H []). }
  induction items as [|x items IH]; intros acc Hall; simpl.
  - by rewrite app_nil_r.
  - apply Forall_cons in Hall as [Hx Hall]. rewrite IH by done.
    rewrite Trim_none by (revert Hx; apply allBytes_impl, notSpace_not_LF).
    unfold named. destruct (String.eqb x ""); simpl; [done|].
    by rewrite <- app_assoc.
Qed.

Lemma allBytes_append p (s1 s2 : string) :
  allBytes p (s1 +:+ s2) = allBytes p s1 && allBytes p s2.
Proof.
  induction s1 as [|c s1 IH]; [done|].
  change (String c s1 +:+ s2) with (String c (s1 +:+ s2)). simpl.
  by rewrite IH, andb_assoc.
Qed.

Lemma allBytes_join p items :
  p ","%char = true ->
  Forall (fun n => allBytes p n = true) items ->
  allBytes p (join items) = true.
Proof.
  intros Hp. induction items as [|x items IH]; [done|]. intros Hall.
  apply Forall_cons in Hall as [Hx Hall]. destruct items as [|y items];
    [done|].
  change (join (x :: y :: items))
    with (x +:+ String ","%char (join (y :: items))).
  rewrite allBytes_append, Hx. simpl. rewrite Hp. by apply IH.
Qed.

(** Toggle events only accumulate, and keep their shape. *)
Lemma appendEvent_grows isEnabled line events :
  appendEvent isEnabled line events = events
  \/ appendEvent isEnabled line events
     = events ++ [mkEnableDisableConfig isEnabled line].
Proof. unfold appendEvent. destruct (_ || _); [by left|by right]. Qed.

Lemma grows_refl m : grows m m.
Proof. intros name. done. Qed.

Lemma grows_trans m1 m2 m3 : grows m1 m2 -> grows m2 m3 -> grows m1 m3.
Proof.
  intros H12 H23 name. destruct (H12 name) as [Ha Hb].
  destruct (H23 name) as [Hc Hd]. split; [auto|]. by etrans.
Qed.

Lemma handleConfig_grows isEnabled line name m :
  grows m (handleConfig isEnabled line name m).
Proof.
  intros name'. rewrite handleConfig_insert.
  destruct (decide (name = name')) as [->|Hne].
  - rewrite lookup_insert_eq. split; [done|]. simpl.
    destruct (appendEvent_grows isEnabled line (default [] (m !! name')))
      as [-> | ->]; [done|]. by apply prefix_app_r.
  - by rewrite lookup_insert_ne.
Qed.

Lemma handleRules_grows modifier isEnabled line ruleNames m :
  grows m (handleRules modifier isEnabled line ruleNames m).
Proof.
  unfold handleRules. revert m.
  induction ruleNames as [|name ruleNames IH]; intros m; simpl;
    [apply grows_refl|].
  eapply grows_trans; [|apply IH].
  destruct (String.eqb modifier "line"); [|destruct (String.eqb _ _)];
    repeat (first [ apply handleConfig_grows
                  | eapply grows_trans; [|apply handleConfig_grows] ]).
Qed.

Lemma alternating_snoc events e :
  alternating events ->
  match last events with
  | Some x => enabled x <> enabled e
  | None => True
  end ->
  alternating (events ++ [e]).
Proof.
  induction events as [|e1 events IH]; simpl; [done|].
  intros [H1 H2] Hlast. destruct events as [|e2 events].
  - simpl in *. done.
  - simpl in *. split; [done|]. apply IH; [done|]. done.
Qed.

Lemma appendEvent_shape isEnabled line events :
  eventsShape events -> eventsShape (appendEvent isEnabled line events).
Proof.
  intros [Hstart Halt]. split; [by apply appendEvent_startsDisabled|].
  unfold appendEvent.
  destruct events as [|e1 [|e2 events]].
  - by destruct isEnabled.
  - simpl. done.
  - rewrite last_cons_cons.
    destruct (last (e2 :: events)) as [x|] eqn:Hlast;
      [|by apply last_None in Hlast].
    simpl (1 <? _)%nat. simpl (_ =? 0)%nat. rewrite andb_false_l, orb_false_r.
    rewrite andb_true_l.
    destruct (Bool.eqb (enabled x) isEnabled) eqn:Heq; [done|].
    change (tail ((e1 :: e2 :: events)
                  ++ [mkEnableDisableConfig isEnabled line]))
      with ((e2 :: events) ++ [mkEnableDisableConfig isEnabled line]).
    apply alternating_snoc; [done|]. rewrite Hlast. simpl.
    by apply Bool.eqb_false_iff in Heq.
Qed.

Lemma handleConfig_wellShaped isEnabled line name m :
  wellShaped m -> wellShaped (handleConfig isEnabled line name m).
Proof.
  intros Hm name' events. rewrite handleConfig_insert.
  destruct (decide (name = name')) as [->|Hne].
  - rewrite lookup_insert_eq. intros [= <-].
    apply appendEvent_shape.
    destruct (m !! name') as [existing|] eqn:Hex; [|done].
    by apply (Hm name').
  - rewrite lookup_insert_ne by done. apply Hm.
Qed.

Lemma handleRules_wellShaped modifier isEnabled line ruleNames m :
  wellShaped m ->
  wellShaped (handleRules modifier isEnabled line ruleNames m).
Proof.
  unfold handleRules. revert m.
  induction ruleNames as [|name ruleNames IH]; intros m Hm; simpl; [done|].
  apply IH.
  destruct (String.eqb modifier "line"); [|destruct (String.eqb _ _)];
    repeat apply handleConfig_wellShaped; done.
Qed.

Lemma handleCommentLine_wellShaped f rules must line st c :
  wellShaped (enabledDisabledRulesMap st) ->
  wellShaped
    (enabledDisabledRulesMap (handleCommentLine f rules must line st c)).
Proof.
  intros Hst. destruct (isDirective c) eqn:Hc.
  - rewrite handleCommentLine_applyDirective by done.
    unfold applyDirective. destruct (_ && _ && _); [done|].
    by apply handleRules_wellShaped.
  - by rewrite handleCommentLine_ignored.
Qed.

(** Intervals. *)
Lemma pairIntervals_length f R events :
  length (pairIntervals f R events) = ((length events + 1) / 2)%nat.
Proof.
  induction events as [events IH] using (induction_ltof1 _ length).
  unfold ltof in IH. destruct events as [|e1 [|e2 events]]; [done|done|].
  cbn [pairIntervals length]. rewrite IH by (simpl; lia).
  replace (S (S (length events)) + 1)%nat with (length events + 1 + 1 * 2)%nat
    by lia.
  rewrite Nat.div_add by done. lia.
Qed.

Lemma pairIntervals_positions f R events1 events2 :
  map position events1 = map position events2 ->
  pairIntervals f R events1 = pairIntervals f R events2.
Proof.
  revert events2.
  induction events1 as [events1 IH] using (induction_ltof1 _ length).
  unfold ltof in IH. intros events2 Hpos.
  destruct events1 as [|a1 [|a2 events1]], events2 as [|b1 [|b2 events2]];
    try discriminate; simpl in *; try done.
  - by injection Hpos as ->.
  - injection Hpos as -> -> Hpos. f_equal. apply IH; [lia|done].
Qed.

Lemma ruleResultLoop_file f f' name events : forall i acc,
  File.Name f = File.Name f' ->
  ruleResultLoop f name i events acc = ruleResultLoop f' name i events acc.
Proof.
  induction events as [|e events IH]; intros i acc Hname; simpl; [done|].
  rewrite Hname. by apply IH.
Qed.

(** Suffixes. *)
Lemma substring_all (s : string) :
  String.substring 0 (String.length s) s = s.
Proof. induction s as [|c s IH]; simpl; [done|]. by rewrite IH. Qed.

Lemma substring_split (s : string) : forall n,
  (n <= String.length s)%nat ->
  s = String.substring 0 n s +:+ String.substring n (String.length s - n) s.
Proof.
  induction s as [|c s IH]; intros n Hn.
  - simpl in Hn. by replace n with 0%nat by lia.
  - destruct n as [|n].
    + rewrite Nat.sub_0_r, substring_all. done.
    + simpl in Hn. simpl String.length. simpl (S _ - S _)%nat.
      change (String.substring (S n) ?m (String c s))
        with (String.substring n m s).
      change (String.substring 0 (S n) (String c s))
        with (String c (String.substring 0 n s)).
      change (String c s
              = String c (String.substring 0 n s
                          +:+ String.substring n (String.length s - n) s)).
      f_equal. apply IH. lia.
Qed.

Lemma substring_suffix (p suffix : string) :
  String.substring (String.length p) (String.length suffix) (p +:+ suffix)
  = suffix.
Proof.
  induction p as [|c p IH].
  - change (EmptyString +:+ suffix) with suffix. apply substring_all.
  - change (String c p +:+ suffix) with (String c (p +:+ suffix)).
    simpl. apply IH.
Qed.

Lemma HasSuffix_endsWith s suffix :
  strings.HasSuffix s suffix = true <-> endsWith s suffix.
Proof.
  unfold strings.HasSuffix, endsWith. split.
  - intros [Hlen Heq]%andb_prop. apply Nat.leb_le in Hlen.
    apply String.eqb_eq in Heq.
    exists (String.substring 0 (String.length s - String.length suffix) s).
    etrans;
      [apply (substring_split s (String.length s - String.length suffix));
       lia|].
    f_equal.
    replace (String.length s - (String.length s - String.length suffix))%nat
      with (String.length suffix) by lia.
    exact Heq.
  - intros [p ->]. rewrite length_append. apply andb_true_intro. split.
    + apply Nat.leb_le. lia.
    + replace (String.length p + String.length suffix
               - String.length suffix)%nat
        with (String.length p) by lia.
      rewrite substring_suffix. apply String.eqb_refl.
Qed.

Lemma basicTypeKinds_Some kind dt :
  basicTypeKinds kind = Some dt <-> (kind, dt) ∈ untypedDefaults.
Proof.
  unfold untypedDefaults. rewrite !elem_of_cons, elem_of_nil. split.
  - destruct kind; simpl; intros [= <-]; auto 10.
  - intros H. repeat destruct H as [[= -> ->] | H]; done.
Qed.

(** The issues of a file. *)
Lemma collectIssues_foldl xml_Escape severity Failure_Filename config
    failures fn : forall acc : gmap string (list Checkstyle.issue),
  foldl (fun (issues : gmap string (list Checkstyle.issue)) failure =>
           let what := xml_Escape (Failure.Failure failure) in
           let iss :=
             Checkstyle.mkIssue
               (token.Line (Start (Failure.Position failure)))
               (token.Column (Start (Failure.Position failure)))
               what
               (Failure.Confidence failure)
               (severity config failure)
               (Failure.RuleName failure) in
           let fn := Failure_Filename failure in
           let issues :=
             match issues !! fn with
             | None => <[fn := []]> issues
             | Some _ => issues
             end in
           <[fn := default [] (issues !! fn) ++ [iss]]> issues)
        acc failures !! fn
  = match failuresOf Failure_Filename fn failures with
    | [] => acc !! fn
    | found => Some (default [] (acc !! fn)
                     ++ map (issueOf xml_Escape severity config) found)
    end.
Proof.
  induction failures as [|fl failures IH]; intros acc; [done|].
  cbn [foldl]. rewrite IH. clear IH. unfold failuresOf. cbn [List.filter].
  set (iss := Checkstyle.mkIssue _ _ _ _ _ _).
  assert (forall name,
    (<[Failure_Filename fl :=
         default []
           (match acc !! Failure_Filename fl with
            | Some _ => acc
            | None => <[Failure_Filename fl := []]> acc
            end !! Failure_Filename fl) ++ [iss]]>
       match acc !! Failure_Filename fl with
       | Some _ => acc
       | None => <[Failure_Filename fl := []]> acc
       end) !! name
    = if decide (Failure_Filename fl = name)
      then Some (default [] (acc !! name) ++ [iss])
      else acc !! name) as Hstep.
  { intros name. destruct (acc !! Failure_Filename fl) as [l|] eqn:Hacc.
    - rewrite lookup_insert. case_decide as Hn; [|done].
      subst name. by rewrite Hacc.
    - rewrite lookup_insert. case_decide as Hn.
      + subst name. by rewrite lookup_insert_eq, Hacc.
      + by rewrite lookup_insert_ne. }
  rewrite Hstep.
  destruct (String.eqb_spec (Failure_Filename fl) fn) as [Heq|Hne].
  - rewrite decide_True by done. simpl.
    fold (failuresOf Failure_Filename fn failures).
    destruct (failuresOf Failure_Filename fn failures) as [|x found]; [done|].
    cbn [map]. fold iss. by rewrite <- app_assoc.
  - rewrite decide_False by done. done.
Qed.

(** Directives that toggle a rule in turn. *)
Lemma scan_in_turn f rules R ds : forall isEnabled st,
  ruleNameOk R = true ->
  togglesInTurn R isEnabled ds ->
  match last (default [] (enabledDisabledRulesMap st !! R)) with
  | Some e => enabled e = negb isEnabled
  | None => isEnabled = false
  end ->
  ds <> [] ->
  foldl (fun st lc => handleCommentLine f rules false lc.1 st lc.2) st ds
  = mkEngine
      (<[R := default [] (enabledDisabledRulesMap st !! R)
              ++ eventsInTurn isEnabled ds]> (enabledDisabledRulesMap st))
      (failures st).
Proof.
  intros isEnabled st HR. revert isEnabled st.
  induction ds as [|[line c] ds IH]; intros isEnabled st Hds Hlast Hne;
    [done|].
  destruct Hds as [Htext Hds]. cbn [foldl fst snd] in *.
  rewrite (handleCommentLine_directive f rules false line st c
             (if isEnabled then "enable" else "disable") "" R);
    [|destruct isEnabled; solve_side|by left|done|done|done].
  replace (String.eqb (if isEnabled then "enable" else "disable") "enable")
    with isEnabled by by destruct isEnabled.
  rewrite handleRules_one. simpl String.eqb. cbv iota.
  rewrite handleConfig_insert, appendEvent_in_turn by done.
  destruct ds as [|lc ds]; [done|].
  rewrite (IH (negb isEnabled)); [| done | | done].
  - cbn [enabledDisabledRulesMap failures]. rewrite lookup_insert_eq.
    cbn [default]. rewrite insert_insert_eq.
    change (eventsInTurn isEnabled ((line, c) :: lc :: ds))
      with (mkEnableDisableConfig isEnabled line
            :: eventsInTurn (negb isEnabled) (lc :: ds)).
    unfold id. by rewrite <- app_assoc.
  - cbn [enabledDisabledRulesMap]. rewrite lookup_insert_eq. cbn [default].
    unfold id. rewrite last_snoc. simpl. by rewrite negb_involutive.
Qed.

(** A disable for rules that have no event yet. *)
Lemma handleRules_fresh line names : forall (m : rulesMap) name,
  NoDup names ->
  (forall n, n ∈ names -> m !! n = None) ->
  handleRules "" false line names m !! name
  = if bool_decide (name ∈ names) then Some [disableAt line] else m !! name.
Proof.
  unfold handleRules.
  induction names as [|n names IH]; intros m name Hnd Hfresh; simpl.
  - done.
  - apply NoDup_cons in Hnd as [Hn Hnd].
    rewrite IH; [|done|].
    + rewrite handleConfig_insert, (Hfresh n) by apply list_elem_of_here.
      destruct (decide (name = n)) as [->|Hne].
      * rewrite (bool_decide_eq_false_2 _ Hn).
        rewrite bool_decide_eq_true_2 by apply list_elem_of_here.
        by rewrite lookup_insert_eq.
      * rewrite lookup_insert_ne by done.
        destruct (decide (name ∈ names)) as [Hin|Hnin].
        -- rewrite !bool_decide_eq_true_2; [done| |done].
           by apply list_elem_of_further.
        -- rewrite !bool_decide_eq_false_2; [done| |done].
           by intros [?|?]%elem_of_cons.
    + intros n' Hn'. rewrite handleConfig_insert.
      rewrite lookup_insert_ne by (intros ->; done).
      apply Hfresh. by apply list_elem_of_further.
Qed.

(* ===================================================================== *)
(** ** Further properties of the engine                                   *)
(* ===================================================================== *)

(** X6. In a file without directive comment nothing is suppressed and
    nothing is sent for a missing reason: [disabledIntervals] returns the
    empty map, and [lint], when no rule returns an internal failure, sends
    every failure of the rules it applies, normalized, that passes the
    confidence of [config]. *)
Theorem X_no_directive_no_suppression range f rules config :
  validRange range ->
  (forall g c, g ∈ ast.Comments (File.AST f) -> c ∈ ast.List g ->
               isDirective c = false) ->
  (forall must, disabledIntervals range f rules must = (∅, []))
  /\ ((forall rule, rule ∈ rules -> applies f config rule = true ->
         forall x, x ∈ rawFailures f config rule ->
                   Failure.IsInternal x = false) ->
      lint range f rules config
      = (flat_map
           (fun rule =>
              if applies f config rule
              then confidenceGate config
                     (map (normalized f rule) (rawFailures f config rule))
              else []) rules,
         None)).
Proof.
  intros Hrange Hnone.
  assert (forall must, disabledIntervals range f rules must = (∅, [])) as Hdi.
  { intros must. unfold disabledIntervals.
    rewrite scanComments_directives, directives_nil by done. simpl.
    unfold getEnabledDisabledIntervals. by rewrite validRange_empty. }
  split; [done|]. intros Hrules. unfold lint. rewrite Hdi.
  rewrite lintRules_sent by done. simpl. f_equal.
  apply flat_map_ext. intros rule. destruct (applies f config rule); [|done].
  by rewrite filterFailures_empty.
Qed.

Lemma X_no_directive_no_suppression_witness :
  lint map_to_list remarksOnly [plainRule "first" 4]
    (sampleConfig 0.5%float ∅)
  = ([failureAt "first" 4 4], None).
Proof.
  refine (eq_trans
    (proj2 (X_no_directive_no_suppression map_to_list remarksOnly
              [plainRule "first" 4] (sampleConfig 0.5%float ∅) _ _) _) _).
  - apply validRange_map_to_list.
  - intros g c Hg Hc.
    repeat (apply elem_of_cons in Hg as [->|Hg];
            [apply list_elem_of_singleton in Hc as ->; vm_compute;
             reflexivity|]).
    by apply elem_of_nil in Hg.
  - intros rule Hin _ x Hx.
    apply list_elem_of_singleton in Hin as ->.
    by apply list_elem_of_singleton in Hx as ->.
  - vm_compute. reflexivity.
Defined.

(** X7. Without the policy on reasons [disabledIntervals] sends nothing.
    With it, it sends one failure for each directive that disables without
    a reason, in the order of the comments, and its intervals are those
    that the engine computes without the policy from the other
    directives. *)
Theorem X_policy_at_file_level range f rules :
  (disabledIntervals range f rules false).2 = []
  /\ (disabledIntervals range f rules true).2
     = map (fun lc => missingReason f lc.2)
         (List.filter (fun lc => lacksReason lc.2) (directives f))
  /\ (disabledIntervals range f rules true).1
     = getEnabledDisabledIntervals range f
         (enabledDisabledRulesMap
            (scanDirectives f rules false
               (List.filter (fun lc => negb (lacksReason lc.2))
                  (directives f)))).
Proof.
  unfold disabledIntervals, scanDirectives. cbn [fst snd].
  rewrite !scanComments_directives.
  rewrite scan_no_policy.
  rewrite scan_policy by apply directives_are_directives.
  done.
Qed.

(** X8. Whatever [lint] sends, also before it returns an error, is no
    internal failure, and it is either the failure for a disable without
    reason, under the policy on reasons, or the normalized form of a
    failure that a rule applied to the file returned, not suppressed and
    of a confidence that passes that of [config]. *)
Theorem X_every_failure_sent range f rules config x :
  x ∈ (lint range f rules config).1 ->
  Failure.IsInternal x = false
  /\ ((mustSpecifyDisableReason config = true
       /\ exists lc, lc ∈ directives f /\ x = missingReason f lc.2)
      \/ exists rule raw,
           rule ∈ rules /\ applies f config rule = true
           /\ raw ∈ rawFailures f config rule
           /\ x = normalized f rule raw
           /\ suppressed
                (disabledIntervals range f rules
                   (mustSpecifyDisableReason config)).1 x = false
           /\ float64_ge (Failure.Confidence x) (Config.Confidence config)
              = true).
Proof.
  unfold lint, disabledIntervals. cbn [fst].
  intros [Hx | (rule & raw & Hr & Ha & Hraw & Hint & -> & Hsup & Hgate)]
    %lintRules_sound.
  - rewrite scanComments_directives in Hx.
    apply scan_failures in Hx as [Hx%elem_of_nil | (Hm & lc & Hin & ->)];
      [done|].
    split; [done|]. left. split; [done|]. by exists lc.
  - split; [done|]. right. by exists rule, raw.
Qed.

Lemma X_every_failure_sent_witness :
  Failure.IsInternal (failureAt "broken" 2 2) = false.
Proof.
  refine (proj1 (X_every_failure_sent map_to_list (sampleFile [])
                   [plainRule "broken" 2; internalRule]
                   (sampleConfig 0.5%float ∅) (failureAt "broken" 2 2) _)).
  replace (lint map_to_list (sampleFile [])
             [plainRule "broken" 2; internalRule]
             (sampleConfig 0.5%float ∅)).1
    with [failureAt "broken" 2 2] by (vm_compute; reflexivity).
  apply list_elem_of_here.
Defined.

(** X9. What [directiveRegexp] matches and what its groups hold. A text
    that it matches is [//], white space, [revive:], the action [enable]
    or [disable], a modifier [-line] or [-next-line] or none, the rule
    names after a colon or none, white space, and a reason after a space
    or none. The match has five entries: the text, the action, the
    modifier without its dash, the rule names, which hold no white space,
    and the reason, which holds no line feed. *)
Theorem X_groups_of_a_directive (s : string) :
  FindStringSubmatch directiveRegexp s = []
  \/ exists blanks action modifier names blanks' reason,
       FindStringSubmatch directiveRegexp s
       = [s; action; modifier; names; reason]
       /\ s = "//" +:+ blanks +:+ "revive:" +:+ action +:+ dashed modifier
              +:+ colonNames names +:+ blanks' +:+ spaceReason reason
       /\ isAction action /\ isModifier modifier
       /\ allBytes space blanks = true /\ allBytes space blanks' = true
       /\ allBytes notSpace names = true
       /\ allBytes anyCharNotNL reason = true.
Proof.
  unfold FindStringSubmatch.
  change (S (NumSubexp directiveRegexp)) with 5%nat.
  destruct (run directiveRegexp s (replicate 5 EmptyString) atEnd)
    as [caps|] eqn:Hrun; [right|by left].
  apply run_MatchesCaps in Hrun as (s1 & s2 & caps' & -> & Hm & Hend).
  destruct s2; [|done]. injection Hend as ->. rewrite append_nil_r.
  unfold directiveRegexp in Hm. inv_mc.
  all: simpl replicate; cbn [list_insert tail].
  all: eexists _, _, _, _, _, _; split; [reflexivity|].
  all: split;
    [ unfold dashed, colonNames, spaceReason;
      repeat match goal with
             | H : ?x <> EmptyString |- _ =>
                 rewrite (String_eqb_nonempty x H)
             end;
      reflexivity |].
  all: repeat split; solve_side.
Qed.

(** X10. The rules of a directive are the items of its list that are not
    empty, in their order and as often as they are listed; a list without
    such an item, as [,], stands for every rule. *)
Theorem X_rule_list_of_a_directive f rules must line st c action modifier
    items :
  isAction action -> isModifier modifier ->
  Forall (fun n => allBytes ruleNameByte n = true) items ->
  join items <> EmptyString ->
  ast.Text c = directiveText action modifier (join items) ->
  must && String.eqb action "disable" = false ->
  handleCommentLine f rules must line st c
  = mkEngine
      (handleRules modifier (String.eqb action "enable") line
         (match List.filter named items with
          | [] => map Rule.Name rules
          | names => names
          end)
         (enabledDisabledRulesMap st))
      (failures st).
Proof.
  intros Ha Hm Hitems Hne Htext Hmust.
  assert (Forall (fun n => allBytes notSpace n = true) items) as Hsp.
  { eapply Forall_impl; [exact Hitems|]. intros n. apply allBytes_impl.
    unfold ruleNameByte. by intros ch [? ?]%andb_prop. }
  assert (Forall (fun n => allBytes (fun ch => negb (Ascii.eqb ch ","%char)) n
                           = true) items) as Hcomma.
  { eapply Forall_impl; [exact Hitems|]. intros n. apply allBytes_impl.
    unfold ruleNameByte. by intros ch [? ?]%andb_prop. }
  unfold handleCommentLine.
  rewrite Htext, FindStringSubmatch_directive;
    [|done|done|done|by apply allBytes_join].
  unfold index. simpl nth. simpl (length _ =? 0)%nat. cbv iota.
  rewrite Split_join; [|by intros ->|done].
  rewrite collectRuleNames_filter by done. rewrite Hmust.
  cbv iota. f_equal. f_equal.
  destruct (List.filter named items) as [|n ns]; simpl; [|done].
  by rewrite foldl_rule_names.
Qed.

Lemma X_rule_list_of_a_directive_witness :
  handleCommentLine (sampleFile []) [plainRule "c" 1] false 7
    (mkEngine ∅ []) commaDirective
  = mkEngine {[ "a" := [disableAt 7]; "b" := [disableAt 7] ]} [].
Proof.
  refine (eq_trans
    (X_rule_list_of_a_directive (sampleFile []) [plainRule "c" 1] false 7
       (mkEngine ∅ []) commaDirective "disable" "" ["a"; ""; "b"]
       _ _ _ _ _ _) _).
  - by right.
  - by left.
  - repeat constructor.
  - done.
  - reflexivity.
  - reflexivity.
  - vm_compute. reflexivity.
Defined.

(** X11. A comment never removes a rule from the events nor an event from
    a rule: the events that a rule has after the comment are those it had
    before, followed by new ones or none. The rules that the comment is
    not about keep their events as they are. *)
Theorem X_directive_only_appends f rules must line st c name :
  let m := enabledDisabledRulesMap st in
  let m' := enabledDisabledRulesMap
              (handleCommentLine f rules must line st c) in
  (is_Some (m !! name) -> is_Some (m' !! name))
  /\ default [] (m !! name) `prefix_of` default [] (m' !! name)
  /\ (name ∉ targetRules rules
               (index (FindStringSubmatch directiveRegexp (ast.Text c))
                  rulesPos) ->
      m' !! name = m !! name).
Proof.
  intros m m'. subst m m'. destruct (isDirective c) eqn:Hc.
  - rewrite handleCommentLine_applyDirective by done.
    unfold applyDirective. destruct (_ && _ && _); [done|].
    cbn [enabledDisabledRulesMap].
    split; [|split].
    + apply handleRules_grows.
    + apply handleRules_grows.
    + apply handleRules_frame.
  - by rewrite handleCommentLine_ignored.
Qed.

(** X12. The events that the scan of a file leaves for a rule start with a
    disable, and from the second event on every event is followed by one
    of the other kind: two events of the same kind in a row are the first
    two, both disables, or there are none. *)
Theorem X_shape_of_toggle_events f rules must name events :
  enabledDisabledRulesMap (scanComments f rules must (mkEngine ∅ [])) !! name
  = Some events ->
  startsDisabled events /\ alternating (tail events).
Proof.
  revert name events. change (wellShaped (enabledDisabledRulesMap
    (scanComments f rules must (mkEngine ∅ [])))).
  rewrite scanComments_directives.
  assert (wellShaped (enabledDisabledRulesMap (mkEngine ∅ []))) as Hinit.
  { intros name events. simpl. by rewrite lookup_empty. }
  revert Hinit. generalize (mkEngine ∅ []).
  induction (directives f) as [|[line c] ds IH]; intros st Hst; simpl;
    [done|].
  apply IH. by apply handleCommentLine_wellShaped.
Qed.

Lemma X_shape_of_toggle_events_witness :
  startsDisabled [disableAt 1; disableAt 5]
  /\ alternating (tail [disableAt 1; disableAt 5]).
Proof.
  apply (X_shape_of_toggle_events twoDisables [] false "R").
  vm_compute. reflexivity.
Defined.

(** X13. [getEnabledDisabledIntervals] takes the events of each rule two by
    two, in their order: an event at an even index opens an interval at its
    line, the event after it closes the interval at its line, and an
    interval that is not closed runs to [MaxInt32]. So [n] events give
    [(n+1)/2] intervals, each with the name of the rule and of the file;
    a rule without events gets the empty list; and whether an event
    enables or disables plays no part: only the lines do. *)
Theorem X_intervals_pair_events range f (m : rulesMap) name :
  validRange range ->
  getEnabledDisabledIntervals range f m !! name
  = pairIntervals f name <$> m !! name
  /\ (forall events, m !! name = Some events ->
        exists intervals,
          getEnabledDisabledIntervals range f m !! name = Some intervals
          /\ length intervals = ((length events + 1) / 2)%nat
          /\ (forall d, d ∈ intervals ->
                DisabledInterval.RuleName d = name
                /\ token.Filename (DisabledInterval.From d) = File.Name f
                /\ token.Filename (DisabledInterval.To d) = File.Name f))
  /\ (forall m' : rulesMap, (map position <$> m) = (map position <$> m') ->
        getEnabledDisabledIntervals range f m
        = getEnabledDisabledIntervals range f m').
Proof.
  intros Hrange. split; [by apply getEnabledDisabledIntervals_lookup|].
  split.
  - intros events Hm. exists (pairIntervals f name events).
    rewrite getEnabledDisabledIntervals_lookup, Hm by done.
    split; [done|]. split; [apply pairIntervals_length|].
    clear Hm. induction events as [events IH] using (induction_ltof1 _ length).
    unfold ltof in IH. destruct events as [|e1 [|e2 events]]; simpl.
    + by intros d Hd%elem_of_nil.
    + by intros d ->%list_elem_of_singleton.
    + intros d [->|Hd]%elem_of_cons; [done|].
      apply (IH events); [simpl; lia|done].
  - intros m' Hpos. apply map_eq. intros name'.
    rewrite !getEnabledDisabledIntervals_lookup by done.
    assert ((map position <$> m) !! name' = (map position <$> m') !! name')
      as Hn by by rewrite Hpos.
    rewrite !lookup_fmap in Hn.
    destruct (m !! name') as [e1|], (m' !! name') as [e2|]; simpl in *;
      try done.
    f_equal. apply pairIntervals_positions. by injection Hn.
Qed.

Lemma X_intervals_pair_events_witness :
  getEnabledDisabledIntervals map_to_list (sampleFile [])
    {[ "R" := [disableAt 1; disableAt 5; enableAt 7] ]} !! "R"
  = Some [lineInterval (sampleFile []) "R" 1 5;
          lineInterval (sampleFile []) "R" 7 MaxInt32].
Proof.
  refine (eq_trans
    (proj1 (X_intervals_pair_events map_to_list (sampleFile [])
              {[ "R" := [disableAt 1; disableAt 5; enableAt 7] ]} "R" _)) _).
  - apply validRange_map_to_list.
  - vm_compute. reflexivity.
Defined.

(** X14. A directive for one line, or for the next line, makes two calls of
    [handleConfig]. When the first call appends nothing, because the rule
    has more than one event and the last is of the directive's kind, or
    because the directive enables a rule without events, the second call
    still appends its event: the rule gets one event of the other kind, at
    that line, and no pair. So [enable-line] for a rule without events
    leaves a disable at that line. *)
Theorem X_line_scope_when_first_toggle_is_dropped modifier isEnabled line R
    (m : rulesMap) :
  let existing := default [] (m !! R) in
  modifier = "line" \/ modifier = "next-line" ->
  ((1 < length existing)%nat /\ pendingState existing = isEnabled)
  \/ (existing = [] /\ isEnabled = true) ->
  handleRules modifier isEnabled line [R] m
  = <[R := existing
           ++ [mkEnableDisableConfig (negb isEnabled)
                 (if String.eqb modifier "line" then line
                  else wrapInt (line + 1))]]> m.
Proof.
  intros existing Hmod Hcase. rewrite handleRules_one.
  assert (forall l, appendEvent isEnabled l existing = existing) as Hdrop.
  { intros l. unfold appendEvent. subst existing.
    destruct Hcase as [[Hlen Hpend] | [-> ->]]; [|done].
    unfold pendingState in Hpend.
    destruct (default [] (m !! R)) as [|e1 [|e2 events]];
      [simpl in Hlen; lia|simpl in Hlen; lia|].
    rewrite last_cons_cons in *.
    destruct (last (e2 :: events)) as [x|] eqn:Hlast;
      [|by apply last_None in Hlast].
    rewrite Hpend. by rewrite Bool.eqb_reflx. }
  assert (forall l, appendEvent (negb isEnabled) l existing
                    = existing ++ [mkEnableDisableConfig (negb isEnabled) l])
    as Hadd.
  { intros l. unfold appendEvent. subst existing.
    destruct Hcase as [[Hlen Hpend] | [-> ->]]; [|done].
    unfold pendingState in Hpend.
    destruct (default [] (m !! R)) as [|e1 [|e2 events]];
      [simpl in Hlen; lia|simpl in Hlen; lia|].
    rewrite last_cons_cons in *.
    destruct (last (e2 :: events)) as [x|] eqn:Hlast;
      [|by apply last_None in Hlast].
    rewrite Hpend. by destruct isEnabled. }
  destruct Hmod as [-> | ->]; simpl String.eqb; cbv iota.
  all: by rewrite handleConfig_twice, Hdrop, Hadd.
Qed.

Lemma X_line_scope_when_first_toggle_is_dropped_witness :
  handleRules "line" true 3 ["R"] ∅ = {[ "R" := [disableAt 3] ]}.
Proof.
  refine (eq_trans
    (X_line_scope_when_first_toggle_is_dropped "line" true 3 "R" ∅ _ _) _).
  - by left.
  - by right.
  - vm_compute. reflexivity.
Defined.

(** X20. When the directives of a file are, in turn, a disable, an enable,
    a disable and so on for the one rule [R], without modifier, and no
    reason is required, [R] is the only rule with intervals, and its
    intervals run from the line of each disable to the line of the enable
    that follows it, from the line of a last disable without enable to
    [MaxInt32]. *)
Theorem X_directives_in_turn range f rules R :
  validRange range -> ruleNameOk R = true ->
  directives f <> [] ->
  togglesInTurn R false (directives f) ->
  (disabledIntervals range f rules false).1
  = {[ R := pairIntervals f R (eventsInTurn false (directives f)) ]}.
Proof.
  intros Hrange HR Hne Hds. unfold disabledIntervals. cbn [fst].
  rewrite scanComments_directives.
  rewrite (scan_in_turn f rules R (directives f) false) by done.
  cbn [enabledDisabledRulesMap]. rewrite lookup_empty. cbn [default app].
  rewrite insert_empty.
  by apply getEnabledDisabledIntervals_singleton.
Qed.

Lemma X_directives_in_turn_witness :
  (disabledIntervals map_to_list threeToggles [] false).1
  = {[ "R" := [lineInterval threeToggles "R" 3 5;
               lineInterval threeToggles "R" 9 MaxInt32] ]}.
Proof.
  refine (eq_trans
    (X_directives_in_turn map_to_list threeToggles [] "R" _ _ _ _) _).
  - apply validRange_map_to_list.
  - reflexivity.
  - vm_compute. discriminate.
  - vm_compute. repeat split.
  - vm_compute. reflexivity.
Defined.

(** X21. When the only directive of a file is [//revive:disable], in a
    comment group that ends on line [L], no reason is required and the
    rules have names of their own, the names with intervals are those of
    the rules, each with the one interval from [L] to [MaxInt32]: a failure
    is dropped exactly when its rule name is the name of one of the rules
    and it starts or ends on one of the lines [L .. MaxInt32]. A failure
    under another name is kept. *)
Theorem X_bare_disable range f rules L c (failures : list Failure.t) :
  validRange range ->
  NoDup (map Rule.Name rules) ->
  directives f = [(L, c)] ->
  ast.Text c = "//revive:disable" ->
  (forall name,
     (disabledIntervals range f rules false).1 !! name
     = if bool_decide (name ∈ map Rule.Name rules)
       then Some [lineInterval f name L MaxInt32] else None)
  /\ filterFailures failures (disabledIntervals range f rules false).1
     = List.filter
         (fun failure =>
            negb (bool_decide (Failure.RuleName failure ∈ map Rule.Name rules)
                  && (within L MaxInt32 (startLine failure)
                      || within L MaxInt32 (endLine failure))))
         failures.
Proof.
  intros Hrange Hnd Hdir Htext.
  assert (forall name,
     (disabledIntervals range f rules false).1 !! name
     = if bool_decide (name ∈ map Rule.Name rules)
       then Some [lineInterval f name L MaxInt32] else None) as Hdi.
  { intros name. unfold disabledIntervals. cbn [fst].
    rewrite scanComments_directives, Hdir. cbn [foldl fst snd].
    unfold handleCommentLine. rewrite Htext.
    change "//revive:disable" with ("//revive:" +:+ "disable" +:+ dashed "").
    rewrite (FindStringSubmatch_unnamed "disable" "") by solve_side.
    unfold index. simpl nth. simpl (length _ =? 0)%nat. cbv iota.
    simpl andb. cbv iota. simpl (length _ =? 0)%nat. cbv iota.
    rewrite foldl_rule_names. cbn [app enabledDisabledRulesMap].
    change (String.eqb "disable" "enable") with false.
    rewrite getEnabledDisabledIntervals_lookup by done.
    rewrite handleRules_fresh; [|done|by intros n _; apply lookup_empty].
    rewrite lookup_empty. by destruct (bool_decide _). }
  split; [done|].
  rewrite filterFailures_filter. apply List.filter_ext. intros failure.
  unfold suppressed. rewrite Hdi.
  destruct (bool_decide _); [|done]. simpl.
  by rewrite !within_lineInterval, orb_false_r.
Qed.

Lemma X_bare_disable_witness :
  filterFailures
    [failureAt "a" 3 3; failureAt "b" 7 7; failureAt "other" 9 9]
    (disabledIntervals map_to_list
       (sampleFile [commentAt 5 "//revive:disable"])
       [plainRule "a" 3; plainRule "b" 7] false).1
  = [failureAt "a" 3 3; failureAt "other" 9 9].
Proof.
  refine (eq_trans
    (proj2 (X_bare_disable map_to_list
              (sampleFile [commentAt 5 "//revive:disable"])
              [plainRule "a" 3; plainRule "b" 7] 5
              (ast.mkComment 400 "//revive:disable")
              [failureAt "a" 3 3; failureAt "b" 7 7; failureAt "other" 9 9]
              _ _ _ _)) _).
  - apply validRange_map_to_list.
  - apply NoDup_cons. split; [|apply NoDup_singleton].
    intros H%list_elem_of_singleton. discriminate.
  - vm_compute. reflexivity.
  - reflexivity.
  - vm_compute. reflexivity.
Defined.

(** X15. [filterFailures] returns failures of its argument, in their order
    and none twice: exactly those whose start line and end line lie in no
    interval of their rule name. It filters failure by failure, so the
    result for two slices one after the other is the two results one after
    the other, and filtering the result again changes nothing. *)
Theorem X_filterFailures_keeps_order failures1 failures2 m :
  sublist (filterFailures failures1 m) failures1
  /\ (forall x, x ∈ filterFailures failures1 m
                <-> x ∈ failures1 /\ suppressed m x = false)
  /\ filterFailures (failures1 ++ failures2) m
     = filterFailures failures1 m ++ filterFailures failures2 m
  /\ filterFailures (filterFailures failures1 m) m = filterFailures failures1 m.
Proof.
  rewrite !filterFailures_filter. split; [apply filter_sublist|].
  split; [|split].
  - intros x. rewrite list_elem_of_In, List.filter_In, <- list_elem_of_In.
    by rewrite negb_true_iff.
  - apply List.filter_app.
  - apply filter_idempotent.
Qed.

(** X5. The intervals depend on the comments of a file only through its
    directives, each with its text and with the line on which its comment
    group ends: where the directive stands in its group plays no part.
    So [//revive:disable-line:R] on line 3, followed on line 4 by a second
    comment of the same group, disables [R] on line 4, as the same
    directive alone on line 4 does. *)
Theorem X_directive_takes_line_of_group_end range f f' rules must :
  File.Name f = File.Name f' ->
  map (fun lc => (lc.1, ast.Text lc.2)) (directives f)
  = map (fun lc => (lc.1, ast.Text lc.2)) (directives f') ->
  (disabledIntervals range f rules must).1
  = (disabledIntervals range f' rules must).1.
Proof.
  intros Hname Hdir. unfold disabledIntervals. cbn [fst].
  rewrite !scanComments_directives.
  assert (forall ds ds' st st',
    map (fun lc : int * ast.Comment => (lc.1, ast.Text lc.2)) ds
    = map (fun lc => (lc.1, ast.Text lc.2)) ds' ->
    enabledDisabledRulesMap st = enabledDisabledRulesMap st' ->
    enabledDisabledRulesMap
      (foldl (fun st lc => handleCommentLine f rules must lc.1 st lc.2) st ds)
    = enabledDisabledRulesMap
        (foldl (fun st lc => handleCommentLine f' rules must lc.1 st lc.2)
           st' ds')) as Hscan.
  { induction ds as [|[l c] ds IH]; intros [|[l' c'] ds'] st st' Hds Hst;
      try discriminate; simpl; [done|].
    simpl in Hds. injection Hds as -> Htext Hds.
    apply IH; [done|]. by apply handleCommentLine_map. }
  rewrite (Hscan _ (directives f') _ (mkEngine ∅ [])) by done.
  unfold getEnabledDisabledIntervals.
  generalize (range (enabledDisabledRulesMap
    (foldl (fun st lc => handleCommentLine f' rules must lc.1 st lc.2)
       (mkEngine ∅ []) (directives f')))).
  generalize (∅ : disabledIntervalsMap).
  intros acc entries. revert acc.
  induction entries as [|[name events] entries IH]; intros acc; simpl; [done|].
  by rewrite IH, (ruleResultLoop_file f f').
Qed.

Lemma X_directive_takes_line_of_group_end_witness :
  (disabledIntervals map_to_list (sampleFile [directiveThenRemark])
     [] false).1
  = {[ "R" := [lineInterval (sampleFile []) "R" 4 4] ]}.
Proof.
  refine (eq_trans
    (X_directive_takes_line_of_group_end map_to_list
       (sampleFile [directiveThenRemark])
       (sampleFile [commentAt 4 "//revive:disable-line:R"]) [] false _ _) _).
  - reflexivity.
  - vm_compute. reflexivity.
  - vm_compute. reflexivity.
Defined.

(* ===================================================================== *)
(** ** Properties of the other methods of [File]                          *)
(* ===================================================================== *)

(** X16. A file is a test exactly when its name ends in [_test.go], and it
    is importable exactly when it is no test and its package is not
    [main]. [NewFile] returns the error of the parser, or the file with
    the name, the content and the package it was given and the tree that
    the parser returned. *)
Theorem X_importable_files
    (Package_IsMain : Package -> bool)
    (ParseFile : token.FileSet -> string -> string -> ast.File + string) :
  (forall f, File.IsTest f = true <-> endsWith (File.Name f) "_test.go")
  /\ (forall f, File.IsImportable Package_IsMain f = true
                <-> ~ endsWith (File.Name f) "_test.go"
                    /\ Package_IsMain (File.Pkg f) = false)
  /\ (forall name content pkg,
        match File.NewFile ParseFile name content pkg with
        | inl f =>
            ParseFile (fset pkg) name content = inl (File.AST f)
            /\ File.Name f = name /\ File.Content f = content
            /\ File.Pkg f = pkg
            /\ (File.IsImportable Package_IsMain f = true
                <-> ~ endsWith name "_test.go" /\ Package_IsMain pkg = false)
        | inr err => ParseFile (fset pkg) name content = inr err
        end).
Proof.
  assert (forall f, File.IsTest f = true <-> endsWith (File.Name f) "_test.go")
    as Htest by (intros f; apply HasSuffix_endsWith).
  assert (forall f, File.IsImportable Package_IsMain f = true
                <-> ~ endsWith (File.Name f) "_test.go"
                    /\ Package_IsMain (File.Pkg f) = false) as Himp.
  { intros f. unfold File.IsImportable. rewrite <- Htest.
    destruct (File.IsTest f), (Package_IsMain (File.Pkg f)).
    - split; [done|]. intros [H _]. by destruct H.
    - split; [done|]. intros [H _]. by destruct H.
    - split; [done|]. by intros [_ ?].
    - done. }
  split; [done|]. split; [done|].
  intros name content pkg. unfold File.NewFile.
  destruct (ParseFile (fset pkg) name content) as [tree|err] eqn:Hp; [|done].
  repeat split; try done; by apply (Himp (File.mk name pkg content tree)).
Qed.

(** X17. [IsUntypedConst] panics exactly when the printer fails. It reports
    an untyped constant exactly when the type checker gives the printed
    expression a basic type of one of the kinds untyped bool, int, rune,
    float, complex and string, and the default type it then names is
    [bool], [int], [rune], [float64], [complex128] or [string] in that
    order; for the untyped nil, for a typed expression and after an error
    of the type checker it reports none, with the empty name. *)
Theorem X_untyped_constants
    (Expr : Type) (Expr_Pos : Expr -> token.Pos)
    (Fprint : token.FileSet -> Expr -> string + string)
    (TypesPackage : Type) (TypesPkg : Package -> TypesPackage)
    (Eval : token.FileSet -> TypesPackage -> token.Pos -> string ->
            types.TypeAndValue + string)
    (f : File.t) (expr : Expr) :
  let result := IsUntypedConst Expr Expr_Pos Fprint TypesPackage TypesPkg Eval
                  f expr in
  (result = None <-> exists err, Fprint (fset (File.Pkg f)) expr = inr err)
  /\ (forall defType,
        result = Some (defType, true)
        <-> exists exprStr tv kind,
              Fprint (fset (File.Pkg f)) expr = inl exprStr
              /\ Eval (fset (File.Pkg f)) (TypesPkg (File.Pkg f))
                   (Expr_Pos expr) exprStr = inl tv
              /\ types.Type__ tv = types.Basic kind
              /\ (kind, defType) ∈ untypedDefaults)
  /\ (forall defType, result = Some (defType, false) -> defType = EmptyString).
Proof.
  intros result. subst result. unfold IsUntypedConst, Render.
  destruct (Fprint (fset (File.Pkg f)) expr) as [exprStr|err].
  - destruct (Eval _ _ _ exprStr) as [tv|err] eqn:HE.
    + destruct (types.Type__ tv) as [kind|] eqn:Htv.
      * destruct (basicTypeKinds kind) as [dt|] eqn:Hk.
        -- split; [split; [done|by intros [? [=]]]|]. split; [|done].
           intros defType. split.
           ++ intros [= <-]. exists exprStr, tv, kind.
              by rewrite <- basicTypeKinds_Some.
           ++ intros (? & ? & kind' & [= <-] & HE' & Hk' & Hin).
              rewrite HE in HE'. injection HE' as <-.
              rewrite Htv in Hk'. injection Hk' as <-.
              apply basicTypeKinds_Some in Hin. congruence.
        -- split; [split; [done|by intros [? [=]]]|].
           split; [|by intros ? [= <-]]. intros defType. split; [done|].
           intros (? & ? & kind' & [= <-] & HE' & Hk' & Hin).
           rewrite HE in HE'. injection HE' as <-.
           rewrite Htv in Hk'. injection Hk' as <-.
           apply basicTypeKinds_Some in Hin. congruence.
      * split; [split; [done|by intros [? [=]]]|].
        split; [|by intros ? [= <-]]. intros defType. split; [done|].
        intros (? & ? & kind' & [= <-] & HE' & Hk' & _).
        rewrite HE in HE'. injection HE' as <-. congruence.
    + split; [split; [done|by intros [? [=]]]|].
      split; [|by intros ? [= <-]]. intros defType. split; [done|].
      intros (? & ? & ? & [= <-] & HE' & _). congruence.
  - split; [split; [by eexists|done]|]. split; [|done].
    intros defType. split; [done|]. by intros (? & ? & ? & [=] & _).
Qed.

(* ===================================================================== *)
(** ** Properties of the formatter [Checkstyle]                           *)
(* ===================================================================== *)

(** X18. [Format] files every failure under the name of its file, once:
    the issues of a file are those of its failures, in the order in which
    the failures came, with the line and the column of the start of the
    failure and the escaped message; a file without failure has no
    entry. *)
Theorem X_checkstyle_issues_by_file xml_Escape severity Failure_Filename
    failures config fn :
  Checkstyle.collectIssues xml_Escape severity Failure_Filename failures
    config !! fn
  = match failuresOf Failure_Filename fn failures with
    | [] => None
    | found => Some (map (issueOf xml_Escape severity config) found)
    end.
Proof.
  unfold Checkstyle.collectIssues. rewrite collectIssues_foldl.
  by rewrite lookup_empty.
Qed.

(** X19. The text and the error that [Format] returns depend on the order
    of the failures only file by file: two streams that hold the same
    failures of each file in the same order, however the files are
    interleaved, are formatted alike. *)
Theorem X_checkstyle_interleaving xml_Escape severity Failure_Filename
    (Template : Type) Parse Execute failures1 failures2 config :
  (forall fn, failuresOf Failure_Filename fn failures1
              = failuresOf Failure_Filename fn failures2) ->
  Checkstyle.Format xml_Escape severity Failure_Filename Template Parse
    Execute failures1 config
  = Checkstyle.Format xml_Escape severity Failure_Filename Template Parse
      Execute failures2 config.
Proof.
  intros Hsame. unfold Checkstyle.Format.
  replace (Checkstyle.collectIssues xml_Escape severity Failure_Filename
             failures1 config)
    with (Checkstyle.collectIssues xml_Escape severity Failure_Filename
            failures2 config); [done|].
  apply map_eq. intros fn. unfold Checkstyle.collectIssues.
  rewrite !collectIssues_foldl. by rewrite Hsame.
Qed.

Lemma X_checkstyle_interleaving_witness :
  Checkstyle.Format (fun s => s) sampleSeverity fileOfStart unit
    (fun _ _ => inl tt) sampleExecute
    [failureIn "a.go" "one"; failureIn "b.go" "two"; failureIn "a.go" "three"]
    (sampleConfig 0.5%float ∅)
  = Checkstyle.Format (fun s => s) sampleSeverity fileOfStart unit
      (fun _ _ => inl tt) sampleExecute
      [failureIn "b.go" "two"; failureIn "a.go" "one";
       failureIn "a.go" "three"]
      (sampleConfig 0.5%float ∅).
Proof.
  apply X_checkstyle_interleaving. intros fn.
  unfold failuresOf. cbn [List.filter].
  repeat match goal with
         | |- context [fileOfStart (failureIn ?file ?message)] =>
             change (fileOfStart (failureIn file message)) with file
         end.
  destruct (String.eqb_spec "a.go" fn) as [<-|Ha]; [done|].
  by destruct (String.eqb "b.go" fn).
Defined.
